(** * Verification of the Markdown chunker [chunk.py]

    A shallow embedding of [HeaderTracker] and [TextSplitter] from
    [rag/.opencode/skills/chunking/scripts/chunk.py], with the properties
    of the splitting pipeline stated over it.

    Python strings are sequences of Unicode code points: a character is a
    code point [N], a string is a list of them, and [len] is the length of
    the list.  Python integers are [Z]; offsets reported by [re] are
    natural numbers injected into [Z]. *)

From Stdlib Require Import ZArith NArith List Ascii String Bool Lia.
From stdpp Require Import gmap list sorting.

Local Open Scope Z_scope.

(** ** Characters and strings *)

Abbreviation char := N.
Abbreviation str := (list char).

(** An ASCII literal as a Python string. *)
Definition lit (s : string) : str := map N_of_ascii (list_ascii_of_string s).

Definition nl : char := 10%N.          (* "\n" *)
Definition c_space : char := 32%N.     (* " " *)
Definition c_bang : char := 33%N.      (* "!" *)
Definition c_hash : char := 35%N.      (* "#" *)
Definition c_dollar : char := 36%N.    (* "$" *)
Definition c_lparen : char := 40%N.    (* "(" *)
Definition c_rparen : char := 41%N.    (* ")" *)
Definition c_lbrack : char := 91%N.    (* "[" *)
Definition c_rbrack : char := 93%N.    (* "]" *)
Definition c_btick : char := 96%N.     (* "`" *)
Definition c_pipe : char := 124%N.     (* "|" *)
Definition c_ideo_stop : char := 12290%N.   (* U+3002 *)
Definition c_fw_bang : char := 65281%N.     (* U+FF01 *)
Definition c_fw_quest : char := 65311%N.    (* U+FF1F *)

(** [str.isspace] on one code point; [str.strip()] and the [\s] of [re]
    on a [str] pattern both use it. *)
Definition is_space (c : char) : bool :=
  ((9 <=? c) && (c <=? 13) || (28 <=? c) && (c <=? 32)
   || (c =? 133) || (c =? 160) || (c =? 5760)
   || (8192 <=? c) && (c <=? 8202)
   || (c =? 8232) || (c =? 8233) || (c =? 8239) || (c =? 8287)
   || (c =? 12288))%N.

Definition len (s : str) : Z := Z.of_nat (length s).

(** Truthiness of a string: [if s] holds for a non-empty [s]. *)
Definition truthy (s : str) : bool :=
  match s with [] => false | _ :: _ => true end.

Fixpoint lstrip (s : str) : str :=
  match s with
  | c :: s' => if is_space c then lstrip s' else s
  | [] => []
  end.

Definition rstrip (s : str) : str := rev (lstrip (rev s)).

(** [s.strip()] *)
Definition strip (s : str) : str := rstrip (lstrip s).

(** Python slice indices: a negative index counts from the end, and
    every index is clamped into [0, len]. *)
Definition clamp_index (n i : Z) : Z :=
  if i <? 0 then Z.max 0 (n + i) else Z.min i n.

(** [s[a:b]] *)
Definition slice (s : str) (a b : Z) : str :=
  let lo := clamp_index (len s) a in
  let hi := clamp_index (len s) b in
  take (Z.to_nat (hi - lo)) (drop (Z.to_nat lo) s).

(** [s[a:]] *)
Definition slice_from (s : str) (a : Z) : str :=
  drop (Z.to_nat (clamp_index (len s) a)) s.

Fixpoint is_prefix (p s : str) : bool :=
  match p, s with
  | [], _ => true
  | x :: p', y :: s' => (x =? y)%N && is_prefix p' s'
  | _ :: _, [] => false
  end.

(** [sep in s] *)
Fixpoint contains (sep s : str) : bool :=
  is_prefix sep s ||
  match s with
  | [] => false
  | _ :: s' => contains sep s'
  end.

(** [s.split(sep)] for a non-empty [sep]: the text is cut at the
    non-overlapping occurrences of [sep] found from left to right.
    [skip] counts the characters of an occurrence still to be dropped. *)
Fixpoint split_aux (sep : str) (skip : nat) (s : str) : list str :=
  match s with
  | [] => [[]]
  | c :: s' =>
      match skip with
      | S n => split_aux sep n s'
      | O =>
          if is_prefix sep s
          then [] :: split_aux sep (length sep - 1) s'
          else match split_aux sep 0 s' with
               | p :: ps => (c :: p) :: ps
               | [] => [[c]]
               end
      end
  end.

Definition py_split (s sep : str) : list str := split_aux sep 0 s.

(** [sep.join(l)] *)
Fixpoint join (sep : str) (l : list str) : str :=
  match l with
  | [] => []
  | [x] => x
  | x :: l' => x ++ sep ++ join sep l'
  end.

(** ** The fragment of [re] the program uses

    A backtracking matcher in continuation-passing style for the
    operators that occur in the program's six patterns.  Alternatives
    are tried in the order of Python's engine: a greedy repetition tries
    one more iteration before the continuation, a lazy one the
    continuation first. *)

Inductive cclass : Type :=
| CLit (c : char)            (* a literal character, or a one-element set *)
| CDot                       (* [.] without DOTALL: anything but a newline *)
| CSpace                     (* [\s] *)
| CAny                       (* the set [\s\S] *)
| CNoneOf (cs : list char).  (* a negated set of literals *)

Inductive regex : Type :=
| RChar (cc : cclass)
| RSeq (r1 r2 : regex)
| RBol                       (* [^] under re.MULTILINE *)
| REol                       (* [$] under re.MULTILINE *)
| RRepeat (greedy : bool) (lo : nat) (hi : option nat) (r : regex)
| RGroup (i : nat) (r : regex).

Definition cclass_matches (cc : cclass) (x : char) : bool :=
  match cc with
  | CLit c => (x =? c)%N
  | CDot => negb (x =? nl)%N
  | CSpace => is_space x
  | CAny => true
  | CNoneOf cs => negb (existsb (fun c => (x =? c)%N) cs)
  end.

(** A position in the subject: the offset, the character before it and
    the text from it on. *)
Record cursor : Type := Cursor {
  c_pos : nat;
  c_prev : option char;
  c_rest : str
}.

Definition cursor_start (s : str) : cursor := Cursor 0 None s.

Definition advance (c : cursor) : option cursor :=
  match c_rest c with
  | x :: rest => Some (Cursor (S (c_pos c)) (Some x) rest)
  | [] => None
  end.

(** Start of the string or just after a newline. *)
Definition at_bol (c : cursor) : bool :=
  match c_prev c with
  | None => true
  | Some x => (x =? nl)%N
  end.

(** End of the string or just before a newline. *)
Definition at_eol (c : cursor) : bool :=
  match c_rest c with
  | [] => true
  | x :: _ => (x =? nl)%N
  end.

(** Group spans, most recent first. *)
Definition captures : Type := list (nat * (nat * nat)).

Definition group_span (g : captures) (i : nat) : option (nat * nat) :=
  snd <$> List.find (fun e => Nat.eqb (fst e) i) g.

Definition mresult : Type := option (cursor * captures).
Definition cont : Type := cursor -> captures -> mresult.
Definition matcher : Type := cursor -> captures -> cont -> mresult.

Definition or_else (a b : mresult) : mresult :=
  match a with
  | Some _ => a
  | None => b
  end.

Definition below (hi : option nat) (count : nat) : bool :=
  match hi with
  | None => true
  | Some h => Nat.ltb count h
  end.

(** The repetition [body{lo,hi}].  Every iteration has to consume a
    character, so [fuel] one above the number of remaining characters is
    never exhausted. *)
Fixpoint repeat_loop (body : matcher) (greedy : bool) (lo : nat)
    (hi : option nat) (fuel count : nat) (c : cursor) (g : captures)
    (k : cont) : mresult :=
  match fuel with
  | O => None
  | S fuel' =>
      let again :=
        if below hi count
        then body c g (fun c' g' =>
               if Nat.ltb (c_pos c) (c_pos c')
               then repeat_loop body greedy lo hi fuel' (S count) c' g' k
               else None)
        else None in
      if Nat.ltb count lo then again
      else if greedy then or_else again (k c g)
      else or_else (k c g) again
  end.

Fixpoint rmatch (r : regex) : matcher :=
  fun c g k =>
  match r with
  | RChar cc =>
      match c_rest c with
      | x :: rest =>
          if cclass_matches cc x
          then k (Cursor (S (c_pos c)) (Some x) rest) g
          else None
      | [] => None
      end
  | RSeq r1 r2 => rmatch r1 c g (fun c' g' => rmatch r2 c' g' k)
  | RBol => if at_bol c then k c g else None
  | REol => if at_eol c then k c g else None
  | RRepeat greedy lo hi r' =>
      repeat_loop (rmatch r') greedy lo hi (S (length (c_rest c))) 0 c g k
  | RGroup i r' =>
      rmatch r' c g (fun c' g' => k c' ((i, (c_pos c, c_pos c')) :: g'))
  end.

(** [pattern.match] at one position. *)
Definition match_at (r : regex) (c : cursor) : mresult :=
  rmatch r c [] (fun c' g => Some (c', g)).

(** A match: its start, the cursor at its end and its groups. *)
Record rmatch_obj : Type := Match {
  m_start : nat;
  m_stop : cursor;
  m_groups : captures
}.

Definition m_end (m : rmatch_obj) : nat := c_pos (m_stop m).

(** [pattern.search] from a position: the leftmost position at which the
    pattern matches. *)
Fixpoint search_loop (r : regex) (pos : nat) (prev : option char)
    (rest : str) : option rmatch_obj :=
  match match_at r (Cursor pos prev rest) with
  | Some (c', g) => Some (Match pos c' g)
  | None =>
      match rest with
      | x :: rest' => search_loop r (S pos) (Some x) rest'
      | [] => None
      end
  end.

Definition search (r : regex) (c : cursor) : option rmatch_obj :=
  search_loop r (c_pos c) (c_prev c) (c_rest c).

(** [re.finditer]: the non-overlapping matches from left to right.  The
    scan resumes where a match ended; after an empty match it resumes one
    character further (none of the program's patterns matches the empty
    string). *)
Fixpoint finditer_loop (r : regex) (fuel : nat) (c : cursor)
    : list rmatch_obj :=
  match fuel with
  | O => []
  | S fuel' =>
      match search r c with
      | None => []
      | Some m =>
          let next :=
            if Nat.ltb (m_start m) (m_end m) then Some (m_stop m)
            else advance (m_stop m) in
          m :: match next with
               | Some c' => finditer_loop r fuel' c'
               | None => []
               end
      end
  end.

Definition finditer (r : regex) (text : str) : list rmatch_obj :=
  finditer_loop r (S (length text)) (cursor_start text).

(** [m.group(i)] as a string; an unset group is rendered empty. *)
Definition group_text (text : str) (m : rmatch_obj) (i : nat) : str :=
  match group_span (m_groups m) i with
  | Some (a, b) => slice text (Z.of_nat a) (Z.of_nat b)
  | None => []
  end.

(** [re.findall] for a pattern with two groups: the pairs of group
    texts. *)
Definition findall2 (r : regex) (text : str) : list (str * str) :=
  map (fun m => (group_text text m 1, group_text text m 2)) (finditer r text).

(** Derived operators. *)
Definition RLit (c : char) : regex := RChar (CLit c).
Definition RStar (r : regex) : regex := RRepeat true 0 None r.
Definition RPlus (r : regex) : regex := RRepeat true 1 None r.
Definition RLazyStar (r : regex) : regex := RRepeat false 0 None r.

Notation "r1 ⋅ r2" := (RSeq r1 r2) (at level 41, right associativity).

(** ** [HeaderTracker] *)

Record HeaderTracker : Type := {
  active_headers : gmap nat str
}.

Definition HeaderTracker_init : HeaderTracker :=
  {| active_headers := ∅ |}.

(** The pattern [^(#{1,6})\s+(.+)$], compiled with [re.MULTILINE]. *)
Definition header_pattern : regex :=
  RBol ⋅ RGroup 1 (RRepeat true 1 (Some 6%nat) (RLit c_hash))
       ⋅ RPlus (RChar CSpace)
       ⋅ RGroup 2 (RPlus (RChar CDot))
       ⋅ REol.

(** [list(d.keys())] *)
Definition keys (d : gmap nat str) : list nat := (map_to_list d).*1.

(** One iteration of the loop of [update_from_text], for the match
    [(hashes, title)]. *)
Definition header_step (active : gmap nat str) (m : str * str)
    : gmap nat str :=
  let level := length (fst m) in
  let active1 := <[level := strip (snd m)]> active in
  foldl (fun d k => if Nat.ltb level k then delete k d else d)
        active1 (keys active1).

Definition update_from_text (self : HeaderTracker) (text : str)
    : HeaderTracker :=
  let matches := findall2 header_pattern text in
  {| active_headers := foldl header_step (active_headers self) matches |}.

Definition header_joiner : str := lit " > ".

Definition get_headers (self : HeaderTracker) : str :=
  let headers :=
    map (fun k => active_headers self !!! k)
        (merge_sort Nat.le (keys (active_headers self))) in
  join header_joiner headers.

(** ** [TextSplitter] *)

Record TextSplitter : Type := {
  chunk_size : Z;
  chunk_overlap : Z;
  header_tracker : HeaderTracker;
  separators : list str;
  protect_patterns : list regex
}.

(** [\$\$[\s\S]*?\$\$] *)
Definition latex_pattern : regex :=
  RLit c_dollar ⋅ RLit c_dollar ⋅ RLazyStar (RChar CAny)
    ⋅ RLit c_dollar ⋅ RLit c_dollar.

(** [```[\s\S]*?```] *)
Definition code_pattern : regex :=
  RLit c_btick ⋅ RLit c_btick ⋅ RLit c_btick ⋅ RLazyStar (RChar CAny)
    ⋅ RLit c_btick ⋅ RLit c_btick ⋅ RLit c_btick.

(** [\[.*?\]\(.*?\)] *)
Definition link_pattern : regex :=
  RLit c_lbrack ⋅ RLazyStar (RChar CDot) ⋅ RLit c_rbrack
    ⋅ RLit c_lparen ⋅ RLazyStar (RChar CDot) ⋅ RLit c_rparen.

(** [!\[.*?\]\(.*?\)] *)
Definition image_pattern : regex := RLit c_bang ⋅ link_pattern.

(** The table-row pattern: [[ ]*], then one or more times a pipe followed
    by [[^|\n]*], then a pipe. *)
Definition table_pattern : regex :=
  RStar (RLit c_space)
    ⋅ RPlus (RLit c_pipe ⋅ RStar (RChar (CNoneOf [c_pipe; nl])))
    ⋅ RLit c_pipe.

Definition TextSplitter_init (chunk_size chunk_overlap : Z) : TextSplitter :=
  {| chunk_size := chunk_size;
     chunk_overlap := chunk_overlap;
     header_tracker := HeaderTracker_init;
     separators := [[nl; nl; nl]; [nl; nl]; [nl];
                    [c_ideo_stop]; [c_fw_bang]; [c_fw_quest]];
     protect_patterns := [latex_pattern; code_pattern; image_pattern;
                          link_pattern; table_pattern] |}.

(** The constructor's defaults, [chunk_size=200, chunk_overlap=50]. *)
Definition TextSplitter_default : TextSplitter := TextSplitter_init 200 50.

(** The assignment to [self.header_tracker]'s state. *)
Definition set_tracker (self : TextSplitter) (t : HeaderTracker)
    : TextSplitter :=
  {| chunk_size := chunk_size self;
     chunk_overlap := chunk_overlap self;
     header_tracker := t;
     separators := separators self;
     protect_patterns := protect_patterns self |}.

(** Tuples of integers in Python's order. *)
Definition range_leb (a b : Z * Z) : bool :=
  (fst a <? fst b) || ((fst a =? fst b) && (snd a <=? snd b)).

Fixpoint insert_range (x : Z * Z) (l : list (Z * Z)) : list (Z * Z) :=
  match l with
  | [] => [x]
  | y :: l' => if range_leb x y then x :: l else y :: insert_range x l'
  end.

(** [matches.sort()] *)
Definition sort_ranges (l : list (Z * Z)) : list (Z * Z) :=
  foldr insert_range [] l.

Definition span (m : rmatch_obj) : Z * Z :=
  (Z.of_nat (m_start m), Z.of_nat (m_end m)).

Definition extract_protected_ranges (self : TextSplitter) (text : str)
    : list (Z * Z) :=
  let matches :=
    flat_map (fun pattern => map span (finditer pattern text))
             (protect_patterns self) in
  sort_ranges matches.

(** The [while] loop at the end of [recursive_split]; [None] when the
    fuel runs out before the loop condition fails. *)
Fixpoint slice_loop (size : Z) (text : str) (fuel : nat) (start : Z)
    (result : list str) : option (list str) :=
  if start <? len text then
    match fuel with
    | O => None
    | S fuel' =>
        let end_ := Z.min (start + size) (len text) in
        slice_loop size text fuel' end_ (result ++ [slice text start end_])
    end
  else Some result.

(** [for part in parts: result.extend(f(part))] *)
Fixpoint extend_each (f : str -> option (list str)) (parts : list str)
    : option (list str) :=
  match parts with
  | [] => Some []
  | part :: parts' =>
      r ← f part; rs ← extend_each f parts'; Some (r ++ rs)
  end.

Fixpoint recursive_split_fuel (self : TextSplitter) (fuel : nat) (text : str)
    : option (list str) :=
  match fuel with
  | O => None
  | S fuel' =>
      let text := strip text in
      if negb (truthy text) then Some []
      else if len text <=? chunk_size self then Some [text]
      else
        match List.find (fun sep => contains sep text) (separators self) with
        | Some sep =>
            extend_each (recursive_split_fuel self fuel') (py_split text sep)
        | None =>
            slice_loop (chunk_size self) text (S (length text)) 0 []
        end
  end.

Definition recursive_split (self : TextSplitter) (text : str)
    : option (list str) :=
  recursive_split_fuel self (S (length text)) text.

(** The loop of [split_preserving_protected] over the ranges, on the
    state [(segments, last_index)]. *)
Fixpoint protected_loop (self : TextSplitter) (text : str)
    (protected : list (Z * Z)) (segments : list str) (last_index : Z)
    : option (list str * Z) :=
  match protected with
  | [] => Some (segments, last_index)
  | (start, end_) :: protected' =>
      segments1 ←
        (if last_index <? start
         then ps ← recursive_split self (slice text last_index start);
              Some (segments ++ ps)
         else Some segments);
      protected_loop self text protected'
                     (segments1 ++ [slice text start end_]) end_
  end.

Definition split_preserving_protected (self : TextSplitter) (text : str)
    (protected : list (Z * Z)) : option (list str) :=
  st ← protected_loop self text protected [] 0;
  if snd st <? len text
  then ps ← recursive_split self (slice_from text (snd st));
       Some (fst st ++ ps)
  else Some (fst st).

(** The carried text:
    [current_chunk[-overlap:] if overlap < len(current_chunk) else current_chunk] *)
Definition overlap_of (self : TextSplitter) (current_chunk : str) : str :=
  if chunk_overlap self <? len current_chunk
  then slice_from current_chunk (- chunk_overlap self)
  else current_chunk.

(** One iteration of the loop of [merge_chunks], on the state
    [(chunks, current_chunk)]. *)
Definition merge_step (self : TextSplitter) (st : list str * str)
    (segment : str) : list str * str :=
  let chunks := fst st in
  let current_chunk := snd st in
  if chunk_size self <? len current_chunk + len segment
  then (if truthy current_chunk then chunks ++ [current_chunk] else chunks,
        overlap_of self current_chunk ++ segment)
  else (chunks, current_chunk ++ segment).

Definition merge_finish (st : list str * str) : list str :=
  if truthy (snd st) then fst st ++ [snd st] else fst st.

Definition merge_chunks (self : TextSplitter) (segments : list str)
    : list str :=
  merge_finish (foldl (merge_step self) ([], []) segments).

(** The f-string of [split]. *)
Definition with_headers (headers chunk : str) : str :=
  if truthy headers then headers ++ [nl; nl] ++ chunk else chunk.

(** [split] returns the chunks and leaves the splitter with the updated
    header tracker. *)
Definition split (self : TextSplitter) (text : str)
    : option (TextSplitter * list str) :=
  let self1 :=
    set_tracker self (update_from_text (header_tracker self) text) in
  let protected := extract_protected_ranges self1 text in
  segments ← split_preserving_protected self1 text protected;
  let chunks := merge_chunks self1 segments in
  let final_chunks :=
    map (fun chunk => with_headers (get_headers (header_tracker self1)) chunk)
        chunks in
  Some (self1, final_chunks).

(** ** Notions used in the statements *)

Definition non_space (c : char) : bool := negb (is_space c).

(** What [recursive_split] may drop: whitespace and the three sentence
    terminators. *)
Definition droppable (c : char) : bool :=
  is_space c || (c =? c_ideo_stop)%N || (c =? c_fw_bang)%N
  || (c =? c_fw_quest)%N.

(** The text without the droppable characters. *)
Definition essence (s : str) : str :=
  List.filter (fun c => negb (droppable c)) s.

(** The ranges follow one another inside a text of length [n], from
    offset [last] on: sorted, not overlapping, within bounds. *)
Fixpoint tiling (last : Z) (ranges : list (Z * Z)) (n : Z) : bool :=
  match ranges with
  | [] => last <=? n
  | (start, end_) :: ranges' =>
      (last <=? start) && (start <=? end_) && tiling end_ ranges' n
  end.

(** Where a segment comes from: a piece of a gap, which fits the chunk
    size, or the text of a protected range. *)
Definition segment_origin (self : TextSplitter) (text : str)
    (ranges : list (Z * Z)) (seg : str) : Prop :=
  len seg <= chunk_size self \/
  exists r, r ∈ ranges /\ seg = slice text (fst r) (snd r).

(** [seg] is a contiguous part of [chunk]. *)
Definition within (seg chunk : str) : Prop :=
  exists pre post, chunk = pre ++ seg ++ post.

(** [seg] is in an emitted chunk or in the buffer of the merge state. *)
Definition held (seg : str) (st : list str * str) : Prop :=
  (exists chunk, chunk ∈ fst st /\ within seg chunk) \/ within seg (snd st).

(** The last [min(chunk_overlap, len a)] characters of [a]. *)
Definition tail_of (self : TextSplitter) (a : str) : str :=
  let n := Z.to_nat (Z.min (chunk_overlap self) (len a)) in
  drop (length a - n) a.

Definition carries (self : TextSplitter) (a b : str) : Prop :=
  exists rest, b = tail_of self a ++ rest.

Definition consecutive (R : str -> str -> Prop) (l : list str) : Prop :=
  forall i a b, l !! i = Some a -> l !! S i = Some b -> R a b.

(** The invariant of the merge loop behind the overlap property. *)
Definition overlap_inv (self : TextSplitter) (st : list str * str) : Prop :=
  Forall (fun c => truthy c = true) (fst st) /\
  consecutive (carries self) (fst st) /\
  (forall a, last (fst st) = Some a ->
             truthy (snd st) = true /\ carries self a (snd st)).

(** A chunk is within the bound or ends with a segment that is [big]. *)
Definition bounded (self : TextSplitter) (big : str -> Prop) (c : str)
    : Prop :=
  len c <= chunk_size self + chunk_overlap self \/
  exists pre seg, big seg /\ c = pre ++ seg.

Definition size_inv (self : TextSplitter) (big : str -> Prop)
    (st : list str * str) : Prop :=
  Forall (bounded self big) (fst st) /\
  (snd st = [] \/ bounded self big (snd st)).

(** The least number of characters a match of the pattern spans. *)
Fixpoint min_width (r : regex) : nat :=
  match r with
  | RChar _ => 1
  | RSeq r1 r2 => min_width r1 + min_width r2
  | RBol | REol => 0
  | RRepeat _ lo _ r' => lo * min_width r'
  | RGroup _ r' => min_width r'
  end.

(** From [c] the matcher has read at least [n] characters up to [c']. *)
Definition consumed (n : nat) (c c' : cursor) : Prop :=
  exists w, c_rest c = w ++ c_rest c' /\
            c_pos c' = (c_pos c + length w)%nat /\ (n <= length w)%nat.

(** A matcher that calls its continuation only after [n] characters. *)
Definition sound (n : nat) (m : matcher) : Prop :=
  forall c g k res, m c g k = Some res ->
    exists c' g', consumed n c c' /\ k c' g' = Some res.

(** The cursor is a position of a text of [n] characters. *)
Definition cursor_wf (n : nat) (c : cursor) : Prop :=
  (c_pos c + length (c_rest c))%nat = n.

Definition match_ok (r : regex) (n : nat) (m : rmatch_obj) : Prop :=
  (m_start m + min_width r <= m_end m)%nat /\ (m_end m <= n)%nat.

(** The matches follow one another from offset [p] on. *)
Fixpoint ordered_from (p : nat) (ms : list rmatch_obj) : Prop :=
  match ms with
  | [] => True
  | m :: ms' =>
      (p <= m_start m)%nat /\ (m_start m <= m_end m)%nat /\
      ordered_from (m_end m) ms'
  end.

(** The chunks a call of [split] returns. *)
Definition chunks_of (r : option (TextSplitter * list str))
    : option (list str) := snd <$> r.

(** ** Documents of the scenarios *)

(** ["# Title\n\nSome short paragraph."] *)
Definition doc_title : str :=
  lit "# Title" ++ [nl; nl] ++ lit "Some short paragraph.".

(** The headers [# A], [## B], [# C], one per line. *)
Definition doc_abc : str :=
  lit "# A" ++ [nl] ++ lit "## B" ++ [nl] ++ lit "# C".

Definition doc_lead_space : str := lit " a".

(** Prose, a link, a formula and a table row. *)
Definition doc_mixed : str :=
  lit " intro [x](y)" ++ [nl; nl] ++ lit "$$k$$ | a | b | end ".

(** A fenced code block of 500 characters. *)
Definition code_block_500 : str :=
  lit "```" ++ repeat 120%N 494 ++ lit "```".

(** ["a"], 400 blanks, ["b"]. *)
Definition doc_blank_run : str :=
  lit "a" ++ repeat c_space 400 ++ lit "b".

(** The lines ["aaa"], ["bbb"], ["ccc"]. *)
Definition doc_three_lines : str :=
  lit "aaa" ++ [nl] ++ lit "bbb" ++ [nl] ++ lit "ccc".

(** Three lines of 200 characters each. *)
Definition doc_three_long_lines : str :=
  repeat 97%N 200 ++ [nl] ++ repeat 98%N 200 ++ [nl] ++ repeat 99%N 200.

Definition doc_header_a : str := lit "# A".
Definition doc_plain_b : str := lit "b".

(** A fenced code block of 500 characters whose first line is the table
    row [|a|]. *)
Definition doc_nested_block : str :=
  lit "```" ++ lit "|a|" ++ repeat 120%N 491 ++ lit "```".

Definition doc_old : str := lit "# Old".
Definition doc_new : str := lit "## New" ++ [nl; nl] ++ lit "text".

(** The headers [# A] and [## B] and two lines of prose. *)
Definition doc_two_levels : str :=
  lit "# A" ++ [nl] ++ lit "## B" ++ [nl] ++ lit "xxxxxxxx" ++ [nl]
    ++ lit "yyyyyyyy".

(** ** Further notions *)

(** The chunks rebuilt from their new contents: every chunk is the
    overlap carried from the chunk before it, followed by its own
    content. *)
Fixpoint rebuild (self : TextSplitter) (prev : str) (bodies : list str)
    : list str :=
  match bodies with
  | [] => []
  | body :: bodies' =>
      (overlap_of self prev ++ body)
        :: rebuild self (overlap_of self prev ++ body) bodies'
  end.

(** The state of the merge loop, read as chunks built from contents. *)
Definition rebuild_inv (self : TextSplitter) (seen : list str)
    (st : list str * str) : Prop :=
  exists bodies pending,
    fst st = rebuild self [] bodies /\
    snd st = overlap_of self (default [] (last (fst st))) ++ pending /\
    concat bodies ++ pending = concat seen.

(** The texts of the ranges. *)
Definition regions_of (text : str) (ranges : list (Z * Z)) : list str :=
  map (fun r => slice text (fst r) (snd r)) ranges.

(** The text in front of each range, as the loop of
    [split_preserving_protected] takes it: from [last] to the start of
    the first range, from its end to the start of the next, and so on. *)
Fixpoint gaps_between (text : str) (last : Z) (ranges : list (Z * Z))
    : list str :=
  match ranges with
  | [] => []
  | r :: ranges' =>
      slice text last (fst r) :: gaps_between text (snd r) ranges'
  end.

(** Where the last range ends, [last] when there is none: the value of
    [last_index] after the loop. *)
Fixpoint end_of_ranges (last : Z) (ranges : list (Z * Z)) : Z :=
  match ranges with
  | [] => last
  | r :: ranges' => end_of_ranges (snd r) ranges'
  end.

(** What stands in front of a region, then the region, in turn. *)
Fixpoint lace {A} (gaps : list (list A)) (regions : list A) : list A :=
  match gaps, regions with
  | gap :: gaps', region :: regions' => gap ++ region :: lace gaps' regions'
  | _, _ => []
  end.

Definition single {A} (x : A) : list A := [x].

(** Two ranges do not overlap. *)
Definition apart (a b : Z * Z) : Prop := snd a <= fst b \/ snd b <= fst a.

(** No two ranges of the list overlap. *)
Fixpoint pairwise_apart (l : list (Z * Z)) : Prop :=
  match l with
  | [] => True
  | a :: l' => Forall (apart a) l' /\ pairwise_apart l'
  end.

(** The state of the merge loop, read as chunks built from runs of whole
    segments. *)
Definition runs_inv (self : TextSplitter) (seen : list str)
    (st : list str * str) : Prop :=
  exists (runs : list (list str)) (pending : list str),
    fst st = rebuild self [] (map (fun run => concat run) runs) /\
    snd st = overlap_of self (default [] (last (fst st))) ++ concat pending /\
    concat runs ++ pending = seen.

(** Python's order on pairs of integers. *)
Definition range_le (a b : Z * Z) : Prop :=
  fst a < fst b \/ (fst a = fst b /\ snd a <= snd b).

(** The pattern cannot match without reading the character [x]. *)
Fixpoint needs (x : char) (r : regex) : bool :=
  match r with
  | RChar (CLit c) => (c =? x)%N
  | RChar _ => false
  | RSeq r1 r2 => needs x r1 || needs x r2
  | RBol | REol => false
  | RRepeat _ lo _ r' => Nat.ltb 0 lo && needs x r'
  | RGroup _ r' => needs x r'
  end.

(** The matcher reads a stretch [w] of the text, with [x] in it when
    [must] holds. *)
Definition reads (x : char) (must : bool) (m : matcher) : Prop :=
  forall c g k res, m c g k = Some res ->
    exists c' g' w,
      c_rest c = w ++ c_rest c' /\ (must = true -> x ∈ w) /\
      k c' g' = Some res.

(** The cursor is the position [c_pos c] of [text]. *)
Definition cursor_at (text : str) (c : cursor) : Prop :=
  (c_pos c <= length text)%nat /\ c_rest c = drop (c_pos c) text.

(** What a match of the header pattern captures: 1 to 6 hashes and a
    title that is not empty and holds no newline. *)
Definition header_shape (m : str * str) : Prop :=
  (1 <= length (fst m) <= 6)%nat /\
  Forall (fun c => c = c_hash) (fst m) /\
  snd m <> [] /\ Forall (fun c => c <> nl) (snd m).

(** ** Facts about the string primitives *)

Section Primitives.

Implicit Types (s t p sep : str) (c : char).

Lemma len_nonneg s : 0 <= len s.
Proof. unfold len. lia. Qed.

Lemma len_app s t : len (s ++ t) = len s + len t.
Proof. unfold len. rewrite length_app. lia. Qed.

Lemma truthy_len s : truthy s = true <-> 0 < len s.
Proof. destruct s; unfold len; simpl; split; intros; try lia; congruence. Qed.

Lemma truthy_false s : truthy s = false -> s = [].
Proof. by destruct s. Qed.

Lemma truthy_app_r s t : truthy t = true -> truthy (s ++ t) = true.
Proof. destruct s, t; simpl; congruence. Qed.

Lemma truthy_rev s : truthy (rev s) = truthy s.
Proof.
  destruct s as [|c s]; [done|]. simpl.
  by destruct (rev s).
Qed.

(** Slices with indices inside the string are [take] and [drop]. *)
Lemma slice_take_drop s a b :
  0 <= a -> a <= b -> b <= len s ->
  slice s a b = take (Z.to_nat (b - a)) (drop (Z.to_nat a) s).
Proof.
  intros Ha Hab Hb. unfold slice, clamp_index.
  destruct (Z.ltb_spec a 0); [lia|]. destruct (Z.ltb_spec b 0); [lia|].
  by rewrite !Z.min_l by lia.
Qed.

Lemma slice_from_drop s a :
  0 <= a -> a <= len s -> slice_from s a = drop (Z.to_nat a) s.
Proof.
  intros Ha Hb. unfold slice_from, clamp_index.
  destruct (Z.ltb_spec a 0); [lia|]. by rewrite Z.min_l by lia.
Qed.

Lemma slice_from_empty a : slice_from [] a = [].
Proof. unfold slice_from. by rewrite drop_nil. Qed.

Lemma slice_len s a b :
  0 <= a -> a <= b -> b <= len s -> len (slice s a b) = b - a.
Proof.
  intros Ha Hab Hb. rewrite slice_take_drop by done.
  unfold len in *. rewrite length_take, length_drop. lia.
Qed.

(** Adjacent slices tile the string. *)
Lemma slice_split s a b :
  0 <= a -> a <= b -> b <= len s ->
  slice_from s a = slice s a b ++ slice_from s b.
Proof.
  intros Ha Hab Hb.
  rewrite slice_take_drop, !slice_from_drop by lia.
  replace (Z.to_nat b) with (Z.to_nat a + Z.to_nat (b - a))%nat by lia.
  by rewrite <- drop_drop, take_drop.
Qed.

(** *** [strip] *)

Lemma lstrip_truthy s : truthy (lstrip s) = existsb non_space s.
Proof.
  induction s as [|c s IH]; [done|]. unfold non_space in *. simpl.
  by destruct (is_space c).
Qed.

Lemma lstrip_existsb (f : char -> bool) s :
  (forall c, is_space c = true -> f c = false) ->
  existsb f (lstrip s) = existsb f s.
Proof.
  intros Hf. induction s as [|c s IH]; [done|]. simpl.
  destruct (is_space c) eqn:Hc; [|done]. by rewrite IH, (Hf c Hc).
Qed.

Lemma existsb_rev (f : char -> bool) s : existsb f (rev s) = existsb f s.
Proof.
  induction s as [|c s IH]; [done|]. simpl.
  rewrite existsb_app, IH. simpl. by destruct (f c), (existsb f s).
Qed.

Lemma rstrip_existsb (f : char -> bool) s :
  (forall c, is_space c = true -> f c = false) ->
  existsb f (rstrip s) = existsb f s.
Proof.
  intros Hf. unfold rstrip.
  by rewrite existsb_rev, lstrip_existsb, existsb_rev.
Qed.

(** The stripped string is empty exactly when the string is blank. *)
Lemma strip_truthy s : truthy (strip s) = existsb non_space s.
Proof.
  unfold strip, rstrip. rewrite truthy_rev, lstrip_truthy, existsb_rev.
  apply lstrip_existsb. intros c Hc. unfold non_space. by rewrite Hc.
Qed.

Lemma strip_existsb_non_space s :
  existsb non_space (strip s) = existsb non_space s.
Proof.
  unfold strip. rewrite rstrip_existsb, lstrip_existsb; [done| |];
    intros c Hc; unfold non_space; by rewrite Hc.
Qed.

Lemma lstrip_filter (f : char -> bool) s :
  (forall c, is_space c = true -> f c = false) ->
  List.filter f (lstrip s) = List.filter f s.
Proof.
  intros Hf. induction s as [|c s IH]; [done|]. simpl.
  destruct (is_space c) eqn:Hc; [|done]. by rewrite IH, (Hf c Hc).
Qed.

Lemma filter_rev (f : char -> bool) s :
  List.filter f (rev s) = rev (List.filter f s).
Proof.
  induction s as [|c s IH]; [done|]. simpl.
  rewrite List.filter_app, IH. simpl.
  destruct (f c); simpl; [done | by rewrite app_nil_r].
Qed.

(** Stripping removes whitespace only. *)
Lemma strip_filter (f : char -> bool) s :
  (forall c, is_space c = true -> f c = false) ->
  List.filter f (strip s) = List.filter f s.
Proof.
  intros Hf. unfold strip, rstrip.
  rewrite filter_rev, lstrip_filter, filter_rev, rev_involutive by done.
  by apply lstrip_filter.
Qed.

Lemma lstrip_length s : (length (lstrip s) <= length s)%nat.
Proof.
  induction s as [|c s IH]; [done|]. simpl.
  destruct (is_space c); simpl; lia.
Qed.

Lemma strip_length s : (length (strip s) <= length s)%nat.
Proof.
  unfold strip, rstrip. rewrite length_rev.
  pose proof (lstrip_length (rev (lstrip s))) as H1.
  pose proof (lstrip_length s) as H2.
  rewrite length_rev in H1. lia.
Qed.

Lemma lstrip_head s c t : lstrip s = c :: t -> is_space c = false.
Proof.
  induction s as [|x s IH]; [done|]. simpl.
  destruct (is_space x) eqn:Hx; [done|]. by intros [= <- _].
Qed.

(** A stripped string does not end in whitespace. *)
Lemma strip_last s t c : strip s = t ++ [c] -> is_space c = false.
Proof.
  unfold strip, rstrip. intros H.
  apply (f_equal (@rev char)) in H.
  rewrite rev_involutive, rev_app_distr in H. simpl in H.
  by apply lstrip_head in H.
Qed.

End Primitives.

(** *** [split] and [in] *)

Section Split.

Implicit Types (s t p sep : str) (c : char).

Lemma is_prefix_spec p s : is_prefix p s = true -> s = p ++ drop (length p) s.
Proof.
  revert s. induction p as [|x p IH]; intros [|y s]; simpl; try done.
  intros [Hxy Hp]%andb_prop. apply N.eqb_eq in Hxy as ->.
  f_equal. by apply IH.
Qed.

Lemma split_aux_skip sep n s : split_aux sep n s = split_aux sep 0 (drop n s).
Proof.
  revert n. induction s as [|c s IH]; intros [|n]; try done.
  simpl. by rewrite IH.
Qed.

(** The unfolding of [split] at a non-empty string. *)
Lemma split_aux_cons sep c s :
  split_aux sep 0 (c :: s) =
  if is_prefix sep (c :: s)
  then [] :: split_aux sep 0 (drop (length sep - 1) s)
  else match split_aux sep 0 s with
       | p :: ps => (c :: p) :: ps
       | [] => [[c]]
       end.
Proof. simpl split_aux at 1. by rewrite split_aux_skip. Qed.

Lemma split_aux_length_le sep s p :
  p ∈ split_aux sep 0 s -> (length p <= length s)%nat.
Proof.
  assert (forall n s p, (length s <= n)%nat ->
            p ∈ split_aux sep 0 s -> (length p <= length s)%nat) as H;
    [|by apply (H (length s))].
  clear s p. induction n as [|n IH]; intros [|c s] p Hle Hin;
    simpl in Hle; try lia.
  - apply list_elem_of_singleton in Hin as ->. simpl. lia.
  - apply list_elem_of_singleton in Hin as ->. simpl. lia.
  - rewrite split_aux_cons in Hin. destruct (is_prefix sep (c :: s)).
    + apply elem_of_cons in Hin as [->|Hin]; [simpl; lia|].
      apply IH in Hin; rewrite length_drop in *; simpl; lia.
    + destruct (split_aux sep 0 s) as [|q ps] eqn:Hs.
      * apply list_elem_of_singleton in Hin as ->. simpl. lia.
      * assert (forall x, x ∈ q :: ps -> (length x <= length s)%nat) as Hall.
        { intros x Hx. rewrite <- Hs in Hx. apply IH in Hx; lia. }
        apply elem_of_cons in Hin as [->|Hin].
        -- specialize (Hall q ltac:(left)). simpl. lia.
        -- specialize (Hall p ltac:(by right)). simpl. lia.
Qed.

(** Splitting on a separator that occurs yields strictly shorter parts. *)
Lemma split_aux_length_lt sep s p :
  sep <> [] -> contains sep s = true ->
  p ∈ split_aux sep 0 s -> (length p < length s)%nat.
Proof.
  intros Hsep. revert p. induction s as [|c s IH]; intros p Hc Hin.
  - destruct sep; [done|]. simpl in Hc. done.
  - rewrite split_aux_cons in Hin.
    destruct (is_prefix sep (c :: s)) eqn:Hp.
    + apply elem_of_cons in Hin as [->|Hin]; [simpl; lia|].
      apply split_aux_length_le in Hin. rewrite length_drop in Hin.
      simpl. lia.
    + simpl in Hc.
      assert (contains sep s = true) as Hc'.
      { destruct sep as [|x sep']; [done|]. simpl in Hp, Hc.
        rewrite Hp in Hc. done. }
      destruct (split_aux sep 0 s) as [|q ps] eqn:Hs.
      * apply list_elem_of_singleton in Hin as ->.
        destruct s; [|simpl; lia].
        destruct sep; [done|]. done.
      * apply elem_of_cons in Hin as [->|Hin].
        -- specialize (IH q Hc' ltac:(left)). simpl. lia.
        -- specialize (IH p Hc' ltac:(by right)). simpl. lia.
Qed.

Lemma filter_all_false (f : char -> bool) s :
  Forall (fun c => f c = false) s -> List.filter f s = [].
Proof.
  induction 1 as [|c s Hc _ IH]; [done|]. simpl. by rewrite Hc.
Qed.

(** [split] drops characters of the separator only. *)
Lemma split_aux_filter (f : char -> bool) sep s :
  sep <> [] -> Forall (fun c => f c = false) sep ->
  List.filter f (concat (split_aux sep 0 s)) = List.filter f s.
Proof.
  intros Hne Hsep. remember (length s) as n eqn:Hn.
  assert (length s <= n)%nat as Hle by lia. clear Hn.
  revert s Hle. induction n as [|n IH]; intros [|c s] Hle;
    simpl in Hle; try lia; try done.
  rewrite split_aux_cons. destruct (is_prefix sep (c :: s)) eqn:Hp.
  - simpl concat. rewrite IH by (rewrite length_drop; lia).
    apply is_prefix_spec in Hp. rewrite Hp at 1.
    rewrite List.filter_app, (filter_all_false f sep) by done. simpl.
    destruct sep as [|x sep']; [done|]. simpl.
    by rewrite Nat.sub_0_r.
  - specialize (IH s ltac:(lia)).
    destruct (split_aux sep 0 s) as [|q ps]; simpl in *.
    + by rewrite <- IH.
    + rewrite <- IH. by destruct (f c).
Qed.

End Split.

(** *** The fixed-width loop *)

Lemma slice_loop_spec size text :
  0 < size ->
  forall fuel start acc,
    0 <= start <= len text ->
    (Z.to_nat (len text - start) <= fuel)%nat ->
    exists pieces,
      slice_loop size text fuel start acc = Some (acc ++ pieces) /\
      concat pieces = drop (Z.to_nat start) text /\
      Forall (fun p => 0 < len p <= size /\
                       (len p <> size -> exists k, p = drop k text)) pieces.
Proof.
  intros Hsize. induction fuel as [|fuel IH]; intros start acc Hs Hf.
  - exists []. assert (start = len text) as -> by lia.
    simpl. rewrite Z.ltb_irrefl, app_nil_r.
    split; [done|]. split; [|done].
    unfold len. rewrite Nat2Z.id. by rewrite drop_all.
  - simpl. destruct (Z.ltb_spec start (len text)) as [Hlt|Hge].
    + set (end_ := Z.min (start + size) (len text)).
      destruct (IH end_ (acc ++ [slice text start end_]))
        as (pieces & Heq & Hcat & Hall); [lia|lia|].
      exists (slice text start end_ :: pieces).
      rewrite Heq, <- app_assoc. split; [done|]. split.
      * simpl. rewrite Hcat. rewrite <- !slice_from_drop by lia.
        symmetry. apply slice_split; lia.
      * constructor; [|done].
        rewrite slice_len by lia. split; [lia|]. intros Hne.
        assert (end_ = len text) as Hend by lia.
        exists (Z.to_nat start).
        rewrite slice_take_drop, Hend by lia.
        apply take_ge. rewrite length_drop. unfold len. lia.
    + exists []. rewrite app_nil_r. split; [done|]. split; [|done].
      assert (start = len text) as -> by lia.
      unfold len. rewrite Nat2Z.id. by rewrite drop_all.
Qed.

(** With a size that is not positive the loop never ends. *)
Lemma slice_loop_diverges size text fuel start acc :
  size <= 0 -> start <= 0 -> 0 < len text ->
  slice_loop size text fuel start acc = None.
Proof.
  intros Hsize. revert start acc.
  induction fuel as [|fuel IH]; intros start acc Hs Hl; simpl;
    destruct (Z.ltb_spec start (len text)); try lia; [done|].
  apply IH; lia.
Qed.

(** ** [recursive_split] *)

Lemma extend_each_Forall2 (f : str -> option (list str))
    (P : str -> list str -> Prop) parts :
  Forall (fun part => exists r, f part = Some r /\ P part r) parts ->
  exists rs, extend_each f parts = Some (concat rs) /\ Forall2 P parts rs.
Proof.
  induction 1 as [|part parts (r & Hr & HP) _ (rs & Hrs & IH)].
  - by exists [].
  - exists (r :: rs). simpl. rewrite Hr, Hrs. simpl. by split; [|constructor].
Qed.

Section RecursiveSplit.

Variable self : TextSplitter.
Hypothesis size_pos : 0 < chunk_size self.
Hypothesis separators_nonempty :
  Forall (fun sep => sep <> []) (separators self).

(** Termination together with the induction principle that follows the
    four ways in which [recursive_split] returns. *)
Lemma recursive_split_fuel_spec (P : str -> list str -> Prop) :
  (forall text, strip text = [] -> P text []) ->
  (forall text,
      truthy (strip text) = true -> len (strip text) <= chunk_size self ->
      P text [strip text]) ->
  (forall text sep rs,
      chunk_size self < len (strip text) ->
      sep ∈ separators self -> contains sep (strip text) = true ->
      Forall2 P (py_split (strip text) sep) rs ->
      P text (concat rs)) ->
  (forall text pieces,
      truthy (strip text) = true -> chunk_size self < len (strip text) ->
      concat pieces = strip text ->
      Forall (fun p => 0 < len p <= chunk_size self /\
                 (len p <> chunk_size self -> exists k, p = drop k (strip text)))
             pieces ->
      P text pieces) ->
  forall fuel text, (length text < fuel)%nat ->
    exists res, recursive_split_fuel self fuel text = Some res /\ P text res.
Proof.
  intros Hempty Hone Hsep Hfixed.
  induction fuel as [|fuel IH]; intros text Hfuel; [lia|].
  simpl. pose proof (strip_length text) as Hlen.
  destruct (truthy (strip text)) eqn:Htruthy; simpl.
  2:{ exists []. split; [done|]. by apply Hempty, truthy_false. }
  destruct (Z.leb_spec (len (strip text)) (chunk_size self)) as [Hle|Hgt].
  { exists [strip text]. split; [done|]. by apply Hone. }
  destruct (List.find _ (separators self)) as [sep|] eqn:Hfind.
  - apply find_some in Hfind as [Hin Hc]. apply list_elem_of_In in Hin.
    assert (sep <> []) as Hne.
    { by eapply (proj1 (Forall_forall _ _) separators_nonempty). }
    destruct (extend_each_Forall2 (recursive_split_fuel self fuel) P
                (py_split (strip text) sep)) as (rs & Hrs & HP).
    { apply Forall_forall. intros part Hpart. apply IH.
      apply (split_aux_length_lt _ _ _ Hne Hc) in Hpart. lia. }
    exists (concat rs). split; [done|]. by eapply Hsep.
  - destruct (slice_loop_spec (chunk_size self) (strip text) size_pos
                (S (length (strip text))) 0 [])
      as (pieces & Heq & Hcat & Hall).
    { pose proof (len_nonneg (strip text)). lia. }
    { unfold len. lia. }
    exists pieces. split; [done|]. by apply Hfixed.
Qed.

Lemma recursive_split_spec (P : str -> list str -> Prop) :
  (forall text, strip text = [] -> P text []) ->
  (forall text,
      truthy (strip text) = true -> len (strip text) <= chunk_size self ->
      P text [strip text]) ->
  (forall text sep rs,
      chunk_size self < len (strip text) ->
      sep ∈ separators self -> contains sep (strip text) = true ->
      Forall2 P (py_split (strip text) sep) rs ->
      P text (concat rs)) ->
  (forall text pieces,
      truthy (strip text) = true -> chunk_size self < len (strip text) ->
      concat pieces = strip text ->
      Forall (fun p => 0 < len p <= chunk_size self /\
                 (len p <> chunk_size self -> exists k, p = drop k (strip text)))
             pieces ->
      P text pieces) ->
  forall text, exists res, recursive_split self text = Some res /\ P text res.
Proof.
  intros H1 H2 H3 H4 text. unfold recursive_split.
  apply recursive_split_fuel_spec; auto.
Qed.

(** [recursive_split] returns. *)
Lemma recursive_split_total text : is_Some (recursive_split self text).
Proof.
  destruct (recursive_split_spec (fun _ _ => True)) with (text := text)
    as (res & -> & _); done.
Qed.

(** Every piece fits the chunk size. *)
Lemma recursive_split_size text res :
  recursive_split self text = Some res ->
  Forall (fun p => len p <= chunk_size self) res.
Proof.
  destruct (recursive_split_spec
              (fun _ res => Forall (fun p => len p <= chunk_size self) res))
    with (text := text) as (res' & -> & H).
  - done.
  - intros t _ Hle. by constructor.
  - intros t sep rs _ _ _ H. apply Forall_concat.
    induction H; by constructor.
  - intros t pieces _ _ _ H. eapply Forall_impl; [exact H|].
    simpl. intros p [Hp _]. lia.
  - by intros [= <-].
Qed.

(** A piece is never empty; it is blank only when it is a full-width
    slice of the fixed-width loop. *)
Lemma recursive_split_piece_shape text res :
  recursive_split self text = Some res ->
  Forall (fun p => truthy p = true /\
            (len p <> chunk_size self -> truthy (strip p) = true)) res.
Proof.
  destruct (recursive_split_spec
    (fun _ res => Forall (fun p => truthy p = true /\
        (len p <> chunk_size self -> truthy (strip p) = true)) res))
    with (text := text) as (res' & -> & H).
  - done.
  - intros t Ht _. constructor; [|done]. split; [done|]. intros _.
    by rewrite strip_truthy, strip_existsb_non_space, <- strip_truthy.
  - intros t sep rs _ _ _ H. apply Forall_concat.
    induction H; by constructor.
  - intros t pieces Ht _ _ H. eapply Forall_impl; [exact H|].
    simpl. intros p [Hp Hk]. split; [apply truthy_len; lia|].
    intros Hne. destruct (Hk Hne) as [k Hpk].
    destruct (strip t) as [|final body _] eqn:Hst using rev_ind; [done|].
    assert (is_space final = false) as Hfinal by (by eapply strip_last).
    rewrite strip_truthy. apply existsb_exists. exists final.
    split; [|unfold non_space; by rewrite Hfinal].
    assert (0 < len p) as Hpos by lia.
    rewrite Hpk. rewrite Hpk in Hpos. unfold len in Hpos.
    rewrite length_drop, length_app in Hpos. simpl in Hpos.
    rewrite drop_app_le by lia. apply in_or_app. right. by left.
  - by intros [= <-].
Qed.

End RecursiveSplit.

(** ** [merge_chunks] *)

Section MergeChunks.

Variable self : TextSplitter.

Local Abbreviation step := (merge_step self).

Lemma merge_step_overflow chunks cur seg :
  chunk_size self < len cur + len seg ->
  step (chunks, cur) seg =
    (if truthy cur then chunks ++ [cur] else chunks,
     overlap_of self cur ++ seg).
Proof.
  intros H. unfold merge_step. simpl.
  by destruct (Z.ltb_spec (chunk_size self) (len cur + len seg)); [|lia].
Qed.

Lemma merge_step_fits chunks cur seg :
  len cur + len seg <= chunk_size self ->
  step (chunks, cur) seg = (chunks, cur ++ seg).
Proof.
  intros H. unfold merge_step. simpl.
  by destruct (Z.ltb_spec (chunk_size self) (len cur + len seg)); [lia|].
Qed.

(** The two shapes of a step. *)
Lemma merge_step_cases chunks cur seg :
  (chunk_size self < len cur + len seg /\
   step (chunks, cur) seg =
     (if truthy cur then chunks ++ [cur] else chunks,
      overlap_of self cur ++ seg)) \/
  (len cur + len seg <= chunk_size self /\
   step (chunks, cur) seg = (chunks, cur ++ seg)).
Proof.
  destruct (Z.lt_ge_cases (chunk_size self) (len cur + len seg)).
  - left. split; [done|]. by apply merge_step_overflow.
  - right. split; [done|]. by apply merge_step_fits.
Qed.

(** Emitted chunks are never changed afterwards. *)
Lemma merge_emitted_stay segs chunks cur :
  exists more,
    merge_finish (foldl step (chunks, cur) segs) = chunks ++ more.
Proof.
  revert chunks cur. induction segs as [|seg segs IH]; intros chunks cur.
  - unfold merge_finish. simpl. destruct (truthy cur); eauto.
    exists []. by rewrite app_nil_r.
  - simpl. destruct (merge_step_cases chunks cur seg) as [[_ ->]|[_ ->]].
    + destruct (truthy cur).
      * destruct (IH (chunks ++ [cur]) (overlap_of self cur ++ seg))
          as [more H]. exists (cur :: more).
        rewrite <- app_assoc in H. exact H.
      * apply IH.
    + apply IH.
Qed.

(** A buffer above the chunk size is emitted as it is. *)
Lemma merge_oversized_emitted segs chunks cur :
  truthy cur = true -> chunk_size self < len cur ->
  exists more,
    merge_finish (foldl step (chunks, cur) segs) = chunks ++ cur :: more.
Proof.
  intros Ht Hbig. destruct segs as [|seg segs].
  - unfold merge_finish. simpl. rewrite Ht. by exists [].
  - simpl. rewrite merge_step_overflow, Ht
      by (pose proof (len_nonneg seg); lia).
    destruct (merge_emitted_stay segs (chunks ++ [cur])
                (overlap_of self cur ++ seg)) as [more H].
    exists more. rewrite <- app_assoc in H. exact H.
Qed.

(** *** Every segment lies within one chunk *)

Lemma within_truthy seg chunk :
  truthy seg = true -> within seg chunk -> truthy chunk = true.
Proof.
  intros Ht (pre & post & ->). destruct seg; [done|]. by destruct pre.
Qed.

Lemma held_step seg st seg' :
  truthy seg = true -> held seg st -> held seg (step st seg').
Proof.
  intros Ht. destruct st as [chunks cur].
  intros [(chunk & Hin & Hw)|Hw]; simpl in *.
  - left. exists chunk. split; [|done].
    destruct (merge_step_cases chunks cur seg') as [[_ ->]|[_ ->]];
      simpl; [|done].
    destruct (truthy cur); [|done]. apply elem_of_app. by left.
  - destruct (merge_step_cases chunks cur seg') as [[_ ->]|[_ ->]]; simpl.
    + left. exists cur. rewrite (within_truthy _ _ Ht Hw).
      split; [|done]. apply elem_of_app. right. by left.
    + right. destruct Hw as (pre & post & ->). exists pre, (post ++ seg').
      by rewrite <- !app_assoc.
Qed.

Lemma held_foldl seg st segs :
  truthy seg = true -> held seg st -> held seg (foldl step st segs).
Proof.
  intros Ht. revert st. induction segs as [|seg' segs IH]; intros st H;
    [done|]. simpl. by apply IH, held_step.
Qed.

Lemma held_now seg st : held seg (step st seg).
Proof.
  destruct st as [chunks cur]. right.
  destruct (merge_step_cases chunks cur seg) as [[_ ->]|[_ ->]]; simpl.
  - exists (overlap_of self cur), []. by rewrite app_nil_r.
  - exists cur, []. by rewrite app_nil_r.
Qed.

Lemma merge_chunks_within segs seg :
  seg ∈ segs -> truthy seg = true ->
  exists chunk, chunk ∈ merge_chunks self segs /\ within seg chunk.
Proof.
  intros (l1 & l2 & ->)%list_elem_of_split Ht. unfold merge_chunks.
  rewrite foldl_app. simpl.
  pose proof (held_foldl seg _ l2 Ht
                (held_now seg (foldl step ([], []) l1))) as H.
  destruct (foldl step _ l2) as [chunks cur]. unfold merge_finish. simpl.
  destruct H as [(chunk & Hin & Hw)|Hw]; simpl in *.
  - exists chunk. split; [|done].
    destruct (truthy cur); [|done]. apply elem_of_app. by left.
  - exists cur. rewrite (within_truthy _ _ Ht Hw).
    split; [|done]. apply elem_of_app. right. by left.
Qed.

(** *** A segment above the chunk size is a chunk's whole new content *)

Lemma merge_chunks_oversized segs seg :
  seg ∈ segs -> truthy seg = true -> chunk_size self < len seg ->
  exists i pre,
    merge_chunks self segs !! i = Some (pre ++ seg) /\
    (pre = [] \/
     exists j prev, i = S j /\ merge_chunks self segs !! j = Some prev /\
                    pre = overlap_of self prev).
Proof.
  intros (l1 & l2 & ->)%list_elem_of_split Ht Hbig. unfold merge_chunks.
  rewrite foldl_app. cbn [foldl].
  destruct (foldl step ([], []) l1) as [chunks cur].
  rewrite merge_step_overflow by (pose proof (len_nonneg cur); lia).
  assert (truthy (overlap_of self cur ++ seg) = true) as Ht'
    by by apply truthy_app_r.
  assert (chunk_size self < len (overlap_of self cur ++ seg)) as Hbig'.
  { rewrite len_app. pose proof (len_nonneg (overlap_of self cur)). lia. }
  destruct (truthy cur) eqn:Hcur.
  - destruct (merge_oversized_emitted l2 (chunks ++ [cur]) _ Ht' Hbig')
      as [more H].
    exists (S (length chunks)), (overlap_of self cur). rewrite H. split.
    + rewrite lookup_app_r by (rewrite length_app; simpl; lia).
      rewrite length_app. simpl.
      by replace (S (length chunks) - (length chunks + 1))%nat with 0%nat
        by lia.
    + right. exists (length chunks), cur. split; [done|]. split; [|done].
      rewrite <- app_assoc. rewrite lookup_app_r by lia.
      by rewrite Nat.sub_diag.
  - destruct (merge_oversized_emitted l2 chunks _ Ht' Hbig') as [more H].
    exists (length chunks), (overlap_of self cur). rewrite H. split.
    + rewrite lookup_app_r by lia. by rewrite Nat.sub_diag.
    + left. apply truthy_false in Hcur as ->. unfold overlap_of.
      rewrite slice_from_empty. by destruct (_ <? _).
Qed.

(** *** The carried overlap *)

Lemma overlap_of_tail cur :
  0 <= chunk_overlap self ->
  exists more, overlap_of self cur = tail_of self cur ++ more.
Proof.
  intros Hov. unfold overlap_of, tail_of.
  destruct (Z.ltb_spec (chunk_overlap self) (len cur)) as [Hlt|Hge].
  - rewrite Z.min_l by lia. unfold slice_from, clamp_index.
    destruct (Z.ltb_spec (- chunk_overlap self) 0) as [Hneg|Hzero].
    + exists []. rewrite app_nil_r. f_equal. unfold len in *. lia.
    + assert (chunk_overlap self = 0) as -> by lia. simpl.
      rewrite Z.min_l by apply len_nonneg. simpl.
      exists cur. by rewrite Nat.sub_0_r, drop_all.
  - rewrite Z.min_r by lia. exists []. rewrite app_nil_r. unfold len.
    rewrite Nat2Z.id, Nat.sub_diag. done.
Qed.

Lemma overlap_of_truthy cur :
  0 <= chunk_overlap self -> truthy cur = true ->
  truthy (overlap_of self cur) = true.
Proof.
  intros Hov Ht. apply truthy_len in Ht. apply truthy_len.
  unfold overlap_of.
  destruct (Z.ltb_spec (chunk_overlap self) (len cur)) as [Hlt|Hge];
    [|done].
  unfold slice_from, clamp_index.
  destruct (Z.ltb_spec (- chunk_overlap self) 0) as [Hneg|Hzero].
  - unfold len in *. rewrite length_drop. lia.
  - assert (chunk_overlap self = 0) as -> by lia. simpl.
    rewrite Z.min_l by apply len_nonneg. by simpl.
Qed.

End MergeChunks.

Lemma consecutive_snoc R l x :
  consecutive R l -> (forall a, last l = Some a -> R a x) ->
  consecutive R (l ++ [x]).
Proof.
  intros Hl Hx i a b Ha Hb.
  destruct (decide (S i < length l)%nat) as [Hlt|Hge].
  - rewrite lookup_app_l in Ha, Hb by lia. by eapply Hl.
  - assert (S i = length l) as Hi.
    { apply lookup_lt_Some in Hb. rewrite length_app in Hb. simpl in Hb.
      lia. }
    rewrite lookup_app_l in Ha by lia.
    rewrite lookup_app_r in Hb by lia.
    replace (S i - length l)%nat with 0%nat in Hb by lia.
    injection Hb as <-. apply Hx. rewrite last_lookup.
    by replace (pred (length l)) with i by lia.
Qed.

Section MergeInvariants.

Variable self : TextSplitter.

Local Abbreviation step := (merge_step self).

(** *** The overlap between consecutive chunks *)

Hypothesis overlap_nonneg : 0 <= chunk_overlap self.

Lemma overlap_inv_emit chunks cur :
  overlap_inv self (chunks, cur) -> truthy cur = true ->
  Forall (fun c => truthy c = true) (chunks ++ [cur]) /\
  consecutive (carries self) (chunks ++ [cur]).
Proof.
  intros (Hall & Hcons & Hlast) Ht. simpl in *. split.
  - apply Forall_app. split; [done|]. by constructor.
  - apply consecutive_snoc; [done|]. intros a Ha. by apply Hlast.
Qed.

Lemma overlap_inv_step st seg : overlap_inv self st -> overlap_inv self (step st seg).
Proof.
  destruct st as [chunks cur]. intros Hinv.
  destruct (merge_step_cases self chunks cur seg) as [[_ ->]|[_ ->]].
  - destruct (truthy cur) eqn:Ht.
    + destruct (overlap_inv_emit _ _ Hinv Ht) as [Hall Hcons].
      split; [done|]. split; [done|]. simpl. intros a Ha.
      rewrite last_snoc in Ha. injection Ha as <-. split.
      * destruct (overlap_of self cur) eqn:Ho; [|done].
        pose proof (overlap_of_truthy self cur overlap_nonneg Ht) as H.
        by rewrite Ho in H.
      * destruct (overlap_of_tail self cur overlap_nonneg) as [more Hm].
        exists (more ++ seg). by rewrite Hm, <- app_assoc.
    + apply truthy_false in Ht as ->.
      destruct Hinv as (Hall & Hcons & Hlast). simpl in *.
      split; [done|]. split; [done|]. simpl. intros a Ha.
      by destruct (Hlast a Ha) as [? _].
  - destruct Hinv as (Hall & Hcons & Hlast). simpl in *.
    split; [done|]. split; [done|]. simpl. intros a Ha.
    destruct (Hlast a Ha) as [Ht (rest & ->)]. split.
    + destruct (tail_of self a ++ rest); [done|done].
    + exists (rest ++ seg). by rewrite <- app_assoc.
Qed.

Lemma overlap_inv_foldl st segs :
  overlap_inv self st -> overlap_inv self (foldl step st segs).
Proof.
  revert st. induction segs as [|seg segs IH]; intros st H; [done|].
  simpl. by apply IH, overlap_inv_step.
Qed.

Lemma tail_of_length a :
  length (tail_of self a) = Z.to_nat (Z.min (chunk_overlap self) (len a)).
Proof. unfold tail_of, len. rewrite length_drop. lia. Qed.

(** Consecutive chunks: the second starts with the tail of the first. *)
Lemma merge_consecutive_carry segs i a b :
  merge_chunks self segs !! i = Some a ->
  merge_chunks self segs !! S i = Some b ->
  truthy a = true /\
  take (Z.to_nat (Z.min (chunk_overlap self) (len a))) b = tail_of self a.
Proof.
  unfold merge_chunks.
  assert (overlap_inv self (foldl step ([], []) segs)) as Hinv.
  { apply overlap_inv_foldl. split; [done|]. split; [by intros []|done]. }
  destruct (foldl step ([], []) segs) as [chunks cur].
  assert (Forall (fun c => truthy c = true) (merge_finish (chunks, cur)) /\
          consecutive (carries self) (merge_finish (chunks, cur))) as [Hall Hcons].
  { unfold merge_finish. simpl. destruct (truthy cur) eqn:Ht.
    - by apply overlap_inv_emit.
    - destruct Hinv as (? & ? & _). done. }
  intros Ha Hb. split.
  - by eapply (proj1 (Forall_lookup _ _) Hall).
  - destruct (Hcons i a b Ha Hb) as [rest ->].
    rewrite <- tail_of_length. by rewrite take_app_length.
Qed.

End MergeInvariants.

(** *** The size of a chunk *)

Section MergeSize.

Variable self : TextSplitter.
Hypothesis overlap_pos : 0 < chunk_overlap self.

Local Abbreviation step := (merge_step self).

Variable big : str -> Prop.

Lemma overlap_of_len cur : len (overlap_of self cur) <= chunk_overlap self.
Proof.
  unfold overlap_of.
  destruct (Z.ltb_spec (chunk_overlap self) (len cur)) as [Hlt|Hge]; [|done].
  unfold slice_from, clamp_index.
  destruct (Z.ltb_spec (- chunk_overlap self) 0); [|lia].
  unfold len in *. rewrite length_drop. lia.
Qed.

Lemma size_inv_step st seg :
  (chunk_size self < len seg -> big seg) ->
  size_inv self big st -> size_inv self big (step st seg).
Proof.
  destruct st as [chunks cur]. intros Hbig [Hall Hcur]. simpl in *.
  destruct (merge_step_cases self chunks cur seg) as [[_ ->]|[Hfit ->]].
  - split; simpl.
    + destruct (truthy cur) eqn:Ht; [|done].
      apply Forall_app. split; [done|]. constructor; [|done].
      destruct Hcur as [->|H]; done.
    + right. destruct (Z.lt_ge_cases (chunk_size self) (len seg)).
      * right. exists (overlap_of self cur), seg. split; [auto|done].
      * left. rewrite len_app. pose proof (overlap_of_len cur). lia.
  - split; simpl; [done|]. right. left. rewrite len_app. lia.
Qed.

Lemma size_inv_foldl st segs :
  Forall (fun seg => chunk_size self < len seg -> big seg) segs ->
  size_inv self big st -> size_inv self big (foldl step st segs).
Proof.
  intros Hsegs. revert st.
  induction Hsegs as [|seg segs Hseg _ IH]; intros st H; [done|].
  simpl. by apply IH, size_inv_step.
Qed.

Lemma merge_chunks_bounded segs :
  Forall (fun seg => chunk_size self < len seg -> big seg) segs ->
  Forall (bounded self big) (merge_chunks self segs).
Proof.
  intros Hsegs. unfold merge_chunks.
  destruct (size_inv_foldl ([], []) segs Hsegs) as [Hall Hcur].
  { split; [done|by left]. }
  destruct (foldl step ([], []) segs) as [chunks cur]. unfold merge_finish.
  simpl in *. destruct (truthy cur) eqn:Ht; [|done].
  apply Forall_app. split; [done|]. constructor; [|done].
  destruct Hcur as [->|H]; done.
Qed.

End MergeSize.

(** ** [split_preserving_protected] *)

Lemma essence_app s t : essence (s ++ t) = essence s ++ essence t.
Proof. apply List.filter_app. Qed.

Lemma essence_strip s : essence (strip s) = essence s.
Proof.
  apply strip_filter. intros c Hc. unfold droppable. by rewrite Hc.
Qed.

Lemma essence_concat_Forall2 (parts : list str) (rs : list (list str)) :
  Forall2 (fun part r => essence (concat r) = essence part) parts rs ->
  essence (concat (concat rs)) = essence (concat parts).
Proof.
  induction 1 as [|part r parts rs H _ IH]; [done|]. simpl.
  by rewrite concat_app, !essence_app, H, IH.
Qed.

Lemma slice_join s a b c :
  0 <= a -> a <= b -> b <= c -> c <= len s ->
  slice s a b ++ slice s b c = slice s a c.
Proof.
  intros Ha Hab Hbc Hc. rewrite !slice_take_drop by lia.
  replace (Z.to_nat b) with (Z.to_nat a + Z.to_nat (b - a))%nat by lia.
  rewrite <- drop_drop, take_take_drop. f_equal. lia.
Qed.

Lemma slice_whole_from s a :
  0 <= a -> a <= len s -> slice s 0 a ++ slice_from s a = s.
Proof.
  intros Ha Hb. rewrite slice_take_drop, slice_from_drop by lia.
  rewrite Z.sub_0_r. simpl. by rewrite take_drop.
Qed.

Lemma slice_same s a : 0 <= a -> a <= len s -> slice s a a = [].
Proof.
  intros Ha Hb. rewrite slice_take_drop by lia.
  by rewrite Z.sub_diag.
Qed.

Lemma tiling_le last ranges n : tiling last ranges n = true -> last <= n.
Proof.
  revert last. induction ranges as [|[s e] ranges IH]; intros last; simpl.
  - lia.
  - intros [[H1 H2]%andb_prop H3]%andb_prop. apply IH in H3. lia.
Qed.

(** Whenever the loop returns, every range has become one segment. *)
Lemma protected_loop_keeps self text ranges segs last segs' last' :
  protected_loop self text ranges segs last = Some (segs', last') ->
  exists added,
    segs' = segs ++ added /\
    forall r, r ∈ ranges -> slice text (fst r) (snd r) ∈ added.
Proof.
  revert segs last. induction ranges as [|[s e] ranges IH];
    intros segs last; simpl.
  - intros [= <- <-]. exists []. rewrite app_nil_r. split; [done|].
    intros r Hr. by apply elem_of_nil in Hr.
  - destruct (if last <? s then _ else _) as [segs1|] eqn:Hgap; [|done].
    simpl. intros H. apply IH in H as (added & -> & Hin).
    assert (exists ps, segs1 = segs ++ ps) as [ps ->].
    { destruct (last <? s).
      - destruct (recursive_split self _) as [ps|]; [|done].
        injection Hgap as <-. by exists ps.
      - injection Hgap as <-. exists []. by rewrite app_nil_r. }
    exists (ps ++ slice text s e :: added). split.
    { by rewrite <- !app_assoc. }
    intros r [->|Hr]%elem_of_cons; apply elem_of_app; right;
      [by left|right; by apply Hin].
Qed.

Lemma split_preserving_protected_regions self text ranges segs :
  split_preserving_protected self text ranges = Some segs ->
  forall r, r ∈ ranges -> slice text (fst r) (snd r) ∈ segs.
Proof.
  unfold split_preserving_protected.
  destruct (protected_loop self text ranges [] 0) as [[segs' last']|] eqn:Hl;
    [|done].
  apply protected_loop_keeps in Hl as (added & -> & Hin). simpl.
  destruct (last' <? len text).
  - destruct (recursive_split self _) as [ps|]; [|done]. simpl.
    intros [= <-] r Hr. apply elem_of_app. left. by apply Hin.
  - intros [= <-]. exact Hin.
Qed.

Section Protected.

Variable self : TextSplitter.
Hypothesis size_pos : 0 < chunk_size self.
Hypothesis separators_nonempty :
  Forall (fun sep => sep <> []) (separators self).

Lemma protected_loop_spec text ranges segs last :
  exists added last',
    protected_loop self text ranges segs last = Some (segs ++ added, last') /\
    (forall r, r ∈ ranges -> slice text (fst r) (snd r) ∈ added) /\
    Forall (segment_origin self text ranges) added.
Proof.
  revert segs last.
  induction ranges as [|[s e] ranges IH]; intros segs last.
  - exists [], last. simpl. rewrite app_nil_r. split; [done|].
    split; [|done]. intros r Hr. by apply elem_of_nil in Hr.
  - simpl.
    assert (exists ps,
      (if last <? s
       then ps ← recursive_split self (slice text last s); Some (segs ++ ps)
       else Some segs) = Some (segs ++ ps) /\
      Forall (fun p => len p <= chunk_size self) ps) as (ps & -> & Hps).
    { destruct (last <? s).
      - destruct (recursive_split_total self size_pos separators_nonempty
                    (slice text last s)) as [ps Hps].
        exists ps. rewrite Hps. split; [done|].
        by eapply recursive_split_size.
      - exists []. by rewrite app_nil_r. }
    simpl.
    destruct (IH ((segs ++ ps) ++ [slice text s e]) e)
      as (added & last' & -> & Hin & Horigin).
    exists (ps ++ slice text s e :: added), last'. split.
    { f_equal. f_equal. by rewrite <- !app_assoc. }
    split.
    + intros r [->|Hr]%elem_of_cons; simpl.
      * apply elem_of_app. right. by left.
      * apply elem_of_app. right. right. by apply Hin.
    + apply Forall_app. split.
      * eapply Forall_impl; [exact Hps|]. intros p Hp. by left.
      * constructor.
        -- right. exists (s, e). split; [by left|done].
        -- eapply Forall_impl; [exact Horigin|].
           intros seg [H|(r & Hr & ->)]; [by left|].
           right. exists r. split; [by right|done].
Qed.

(** [split_preserving_protected] returns; every range is one segment of
    the result, and every other segment fits the chunk size. *)
Lemma split_preserving_protected_spec text ranges :
  exists segs,
    split_preserving_protected self text ranges = Some segs /\
    (forall r, r ∈ ranges -> slice text (fst r) (snd r) ∈ segs) /\
    Forall (segment_origin self text ranges) segs.
Proof.
  unfold split_preserving_protected.
  destruct (protected_loop_spec text ranges [] 0)
    as (added & last' & -> & Hin & Horigin).
  simpl. destruct (last' <? len text).
  - destruct (recursive_split_total self size_pos separators_nonempty
                (slice_from text last')) as [ps Hps].
    rewrite Hps. simpl. exists (added ++ ps). split; [done|]. split.
    + intros r Hr. apply elem_of_app. left. by apply Hin.
    + apply Forall_app. split; [done|].
      eapply Forall_impl; [by eapply recursive_split_size|].
      intros p Hp. by left.
  - exists added. done.
Qed.

(** *** What the segments keep of the text *)

Hypothesis separators_droppable :
  Forall (Forall (fun c => negb (droppable c) = false)) (separators self).

Lemma recursive_split_essence text res :
  recursive_split self text = Some res ->
  essence (concat res) = essence text.
Proof.
  destruct (recursive_split_spec self size_pos separators_nonempty
              (fun text res => essence (concat res) = essence text))
    with (text := text) as (res' & -> & H).
  - intros t Ht. by rewrite <- (essence_strip t), Ht.
  - intros t _ _. simpl. by rewrite app_nil_r, essence_strip.
  - intros t sep rs _ Hsep _ H.
    rewrite (essence_concat_Forall2 _ _ H), <- (essence_strip t).
    apply split_aux_filter.
    + by eapply (proj1 (Forall_forall _ _) separators_nonempty).
    + by eapply (proj1 (Forall_forall _ _) separators_droppable).
  - intros t pieces _ _ Hcat _. by rewrite Hcat, essence_strip.
  - by intros [= <-].
Qed.

Lemma protected_loop_essence text ranges segs last segs' last' :
  0 <= last -> tiling last ranges (len text) = true ->
  protected_loop self text ranges segs last = Some (segs', last') ->
  last <= last' <= len text /\
  essence (concat segs') =
    essence (concat segs) ++ essence (slice text last last').
Proof.
  revert segs last.
  induction ranges as [|[s e] ranges IH]; intros segs last Hlast Htile; simpl.
  - intros [= <- <-]. simpl in Htile. split; [lia|].
    rewrite slice_same by lia. by rewrite app_nil_r.
  - simpl in Htile.
    apply andb_prop in Htile as [[H1 H2]%andb_prop Htile].
    pose proof (tiling_le _ _ _ Htile) as He.
    assert (exists ps,
      (if last <? s
       then ps ← recursive_split self (slice text last s); Some (segs ++ ps)
       else Some segs) = Some (segs ++ ps) /\
      essence (concat ps) = essence (slice text last s)) as (ps & -> & Hps).
    { destruct (Z.ltb_spec last s).
      - destruct (recursive_split_total self size_pos separators_nonempty
                    (slice text last s)) as [ps Hps].
        exists ps. rewrite Hps. split; [done|].
        by apply recursive_split_essence.
      - exists []. rewrite app_nil_r. split; [done|].
        assert (last = s) as -> by lia. by rewrite slice_same by lia. }
    simpl. intros Hloop. apply IH in Hloop as [Hle Hloop]; [|lia|done].
    split; [lia|]. rewrite Hloop.
    rewrite !concat_app, !essence_app. simpl. rewrite app_nil_r, Hps.
    rewrite <- !app_assoc. f_equal. rewrite <- !essence_app. f_equal.
    rewrite app_assoc, slice_join by lia. apply slice_join; lia.
Qed.

(** For ranges that follow one another the segments keep everything but
    droppable characters. *)
Lemma split_preserving_protected_essence text ranges :
  tiling 0 ranges (len text) = true ->
  exists segs,
    split_preserving_protected self text ranges = Some segs /\
    essence (concat segs) = essence text.
Proof.
  intros Htile.
  destruct (split_preserving_protected_spec text ranges)
    as (segs & Hsegs & _).
  exists segs. split; [done|]. revert Hsegs.
  unfold split_preserving_protected.
  destruct (protected_loop self text ranges [] 0) as [[segs' last']|] eqn:Hl;
    [|done].
  apply protected_loop_essence in Hl as [Hle Hl]; [|lia|done].
  simpl in *. destruct (Z.ltb_spec last' (len text)).
  - destruct (recursive_split self (slice_from text last')) as [ps|] eqn:Hps;
      [|done].
    simpl. intros [= <-].
    rewrite concat_app, essence_app, Hl, (recursive_split_essence _ _ Hps).
    rewrite <- essence_app. f_equal. apply slice_whole_from; lia.
  - intros [= <-]. rewrite Hl. f_equal.
    assert (last' = len text) as -> by lia.
    rewrite slice_take_drop by lia. rewrite Z.sub_0_r. simpl.
    unfold len. rewrite Nat2Z.id. apply take_ge. lia.
Qed.

End Protected.

(** ** Matches lie inside the text and are not empty *)

Section Engine.

Local Open Scope nat_scope.

Lemma consumed_refl c : consumed 0 c c.
Proof. exists []. simpl. split; [done|]. split; lia. Qed.

Lemma consumed_trans n1 n2 c1 c2 c3 :
  consumed n1 c1 c2 -> consumed n2 c2 c3 -> consumed (n1 + n2) c1 c3.
Proof.
  intros (w1 & H1 & P1 & L1) (w2 & H2 & P2 & L2). exists (w1 ++ w2).
  rewrite H1, H2, P2, P1, length_app, <- app_assoc.
  split; [done|]. split; lia.
Qed.

Lemma consumed_weaken n m c c' :
  m <= n -> consumed n c c' -> consumed m c c'.
Proof.
  intros Hle (w & H & P & L). exists w. split; [done|]. split; [done|lia].
Qed.

Lemma repeat_loop_sound body w greedy lo hi :
  sound w body ->
  forall fuel count c g k res,
    repeat_loop body greedy lo hi fuel count c g k = Some res ->
    exists c' g', consumed ((lo - count) * w) c c' /\ k c' g' = Some res.
Proof.
  intros Hbody. induction fuel as [|fuel IH]; intros count c g k res;
    [done|]. simpl.
  match goal with
  | |- context [if below hi count then ?a else ?b] =>
      set (again := if below hi count then a else b)
  end.
  assert (again = Some res ->
          exists c' g', consumed ((lo - count) * w) c c' /\
                        k c' g' = Some res) as Hagain.
  { unfold again. destruct (below hi count); [|done]. intros H.
    apply Hbody in H as (c1 & g1 & Hc1 & H).
    destruct (c_pos c <? c_pos c1); [|done].
    apply IH in H as (c' & g' & Hc' & H). exists c', g'. split; [|done].
    eapply consumed_weaken; [|by eapply consumed_trans].
    destruct (decide (count < lo)); [|nia].
    replace (lo - count) with (S (lo - S count)) by lia. simpl. lia. }
  assert (lo <= count -> k c g = Some res ->
          exists c' g', consumed ((lo - count) * w) c c' /\
                        k c' g' = Some res) as Hdone.
  { intros Hle H. exists c, g. split; [|done].
    replace (lo - count) with 0 by lia. apply consumed_refl. }
  destruct (Nat.ltb_spec count lo); [done|].
  destruct greedy; unfold or_else.
  - destruct again; [|by auto]. auto.
  - destruct (k c g); [by auto|]. auto.
Qed.

Lemma rmatch_sound r : sound (min_width r) (rmatch r).
Proof.
  induction r as [cc|r1 IH1 r2 IH2| | |greedy lo hi r IH|i r IH];
    intros c g k res; cbn [rmatch min_width].
  - destruct (c_rest c) as [|x rest] eqn:Hrest; [done|].
    destruct (cclass_matches cc x); [|done]. intros H.
    eexists _, g. split; [|exact H]. exists [x]. simpl.
    split; [done|]. split; lia.
  - intros H. apply IH1 in H as (c1 & g1 & Hc1 & H).
    apply IH2 in H as (c2 & g2 & Hc2 & H). exists c2, g2.
    split; [by eapply consumed_trans|done].
  - destruct (at_bol c); [|done]. intros H. exists c, g.
    split; [apply consumed_refl|done].
  - destruct (at_eol c); [|done]. intros H. exists c, g.
    split; [apply consumed_refl|done].
  - intros H. eapply repeat_loop_sound in H as (c' & g' & Hc' & H);
      [|exact IH]. exists c', g'. split; [|done].
    by rewrite Nat.sub_0_r in Hc'.
  - intros H. apply IH in H as (c' & g' & Hc' & H). eauto.
Qed.

Lemma consumed_wf n k c c' :
  cursor_wf n c -> consumed k c c' ->
  cursor_wf n c' /\ c_pos c + k <= c_pos c'.
Proof.
  unfold cursor_wf. intros Hwf (w & H & P & L).
  rewrite H, length_app in Hwf. lia.
Qed.

Lemma search_loop_ok r n rest pos prev m :
  cursor_wf n (Cursor pos prev rest) ->
  search_loop r pos prev rest = Some m ->
  cursor_wf n (m_stop m) /\ match_ok r n m.
Proof.
  revert pos prev. induction rest as [|x rest IH]; intros pos prev Hwf;
    simpl; unfold match_at.
  - destruct (rmatch r _ _ _) as [[c' g]|] eqn:Hm; [|done].
    intros [= <-]. apply rmatch_sound in Hm as (c1 & g1 & Hc & [= -> ->]).
    destruct (consumed_wf _ _ _ _ Hwf Hc) as [Hwf' Hle].
    split; [done|]. unfold match_ok, m_end, cursor_wf in *. simpl in *. lia.
  - destruct (rmatch r _ _ _) as [[c' g]|] eqn:Hm.
    + intros [= <-]. apply rmatch_sound in Hm as (c1 & g1 & Hc & [= -> ->]).
      destruct (consumed_wf _ _ _ _ Hwf Hc) as [Hwf' Hle].
      split; [done|]. unfold match_ok, m_end, cursor_wf in *. simpl in *.
      lia.
    + apply IH. unfold cursor_wf in *. simpl in *. lia.
Qed.

Lemma finditer_loop_ok r n fuel c :
  cursor_wf n c -> Forall (match_ok r n) (finditer_loop r fuel c).
Proof.
  revert c. induction fuel as [|fuel IH]; intros c Hwf; simpl; [done|].
  destruct (search r c) as [m|] eqn:Hs; [|done].
  unfold search in Hs. destruct c as [pos prev rest].
  apply (search_loop_ok _ n) in Hs as [Hwf' Hok]; [|done].
  constructor; [done|].
  destruct (m_start m <? m_end m).
  - by apply IH.
  - unfold advance. destruct (c_rest (m_stop m)) eqn:Hrest; [done|].
    apply IH. unfold cursor_wf in *. simpl. rewrite Hrest in Hwf'.
    simpl in Hwf'. lia.
Qed.

Lemma finditer_ok r text :
  Forall (match_ok r (length text)) (finditer r text).
Proof. apply finditer_loop_ok. unfold cursor_wf. done. Qed.

Lemma search_loop_start r rest pos prev m :
  search_loop r pos prev rest = Some m -> pos <= m_start m.
Proof.
  revert pos prev. induction rest as [|x rest IH]; intros pos prev; simpl;
    destruct (match_at r _) as [[c' g]|]; try done;
    try (intros [= <-]; simpl; lia).
  intros H. apply IH in H. lia.
Qed.

Lemma ordered_from_weaken p q ms :
  q <= p -> ordered_from p ms -> ordered_from q ms.
Proof.
  destruct ms; [done|]. simpl. intros Hq (H1 & H2 & H3).
  repeat split; [lia|done|done].
Qed.

(** [finditer] yields the matches in the order of the text, without
    overlap. *)
Lemma finditer_loop_ordered r n fuel c :
  cursor_wf n c -> ordered_from (c_pos c) (finditer_loop r fuel c).
Proof.
  revert c. induction fuel as [|fuel IH]; intros c Hwf; simpl; [done|].
  destruct (search r c) as [m|] eqn:Hs; [|done].
  unfold search in Hs. destruct c as [pos prev rest].
  pose proof (search_loop_start _ _ _ _ _ Hs) as Hstart.
  apply (search_loop_ok _ n) in Hs as [Hwf' [Hok _]]; [|done].
  simpl. split; [done|]. split; [lia|].
  destruct (m_start m <? m_end m).
  - by apply IH.
  - unfold advance. destruct (c_rest (m_stop m)) eqn:Hrest; [done|].
    eapply ordered_from_weaken; [|apply IH].
    + unfold m_end. simpl. lia.
    + unfold cursor_wf in *. simpl. rewrite Hrest in Hwf'.
      simpl in Hwf'. lia.
Qed.

Lemma finditer_ordered r text : ordered_from 0 (finditer r text).
Proof.
  apply (finditer_loop_ordered r (length text) (S (length text))
           (cursor_start text)).
  by unfold cursor_wf.
Qed.

End Engine.

(** ** [extract_protected_ranges] *)

Lemma insert_range_elem x y l : x ∈ insert_range y l <-> x = y \/ x ∈ l.
Proof.
  induction l as [|z l IH]; simpl.
  - rewrite list_elem_of_singleton. split; [auto|].
    intros [|H]; [done|]. by apply elem_of_nil in H.
  - destruct (range_leb y z); rewrite !elem_of_cons; [done|].
    rewrite IH. tauto.
Qed.

(** Sorting keeps the elements. *)
Lemma sort_ranges_elem x l : x ∈ sort_ranges l <-> x ∈ l.
Proof.
  induction l as [|y l IH]; simpl; [done|].
  rewrite insert_range_elem, IH, elem_of_cons. tauto.
Qed.

(** Every protected range of a constructed splitter is a non-empty slice
    of the text. *)
Lemma extract_protected_ranges_bounds cs ov t text r :
  r ∈ extract_protected_ranges (set_tracker (TextSplitter_init cs ov) t) text ->
  0 <= fst r /\ fst r < snd r /\ snd r <= len text.
Proof.
  unfold extract_protected_ranges. rewrite sort_ranges_elem.
  rewrite list_elem_of_In, in_flat_map.
  intros (pattern & Hp & Hr). apply in_map_iff in Hr as (m & <- & Hm).
  pose proof (finditer_ok pattern text) as Hok.
  apply list_elem_of_In in Hm.
  apply (proj1 (Forall_forall _ _) Hok) in Hm as [Hw Hend].
  assert (1 <= min_width pattern)%nat as Hmin.
  { simpl in Hp. repeat (destruct Hp as [<-|Hp]; [simpl; lia|]). done. }
  unfold span, len. simpl. lia.
Qed.

(** The text of a protected range is not empty. *)
Lemma protected_slice_truthy text (r : Z * Z) :
  0 <= fst r /\ fst r < snd r /\ snd r <= len text ->
  truthy (slice text (fst r) (snd r)) = true.
Proof.
  intros (H1 & H2 & H3). apply truthy_len. rewrite slice_len; lia.
Qed.

(** ** [HeaderTracker] *)

Section Headers.

Local Open Scope nat_scope.

Implicit Types (d : gmap nat (list N)) (k j level : nat).

Local Abbreviation prune level :=
  (fun d k => if Nat.ltb level k then delete k d else d).

Lemma prune_keeps level ks d j :
  j <= level -> foldl (prune level) d ks !! j = d !! j.
Proof.
  intros Hj. revert d. induction ks as [|k ks IH]; intros d; [done|].
  simpl. rewrite IH. destruct (Nat.ltb_spec level k); [|done].
  apply lookup_delete_ne. lia.
Qed.

Lemma prune_none level ks d j :
  d !! j = None -> foldl (prune level) d ks !! j = None.
Proof.
  revert d. induction ks as [|k ks IH]; intros d Hd; [done|].
  simpl. apply IH. destruct (Nat.ltb_spec level k); [|done].
  rewrite lookup_delete. by case_decide.
Qed.

Lemma prune_deletes level ks d j :
  level < j -> j ∈ ks -> foldl (prune level) d ks !! j = None.
Proof.
  intros Hj. revert d. induction ks as [|k ks IH]; intros d Hin.
  - by apply elem_of_nil in Hin.
  - simpl. apply elem_of_cons in Hin as [<-|Hin]; [|by apply IH].
    apply prune_none. destruct (Nat.ltb_spec level j); [|lia].
    apply lookup_delete_eq.
Qed.

Lemma keys_elem d k : k ∈ keys d <-> is_Some (d !! k).
Proof.
  unfold keys. rewrite list_elem_of_fmap. split.
  - intros ([k' v] & -> & H). apply elem_of_map_to_list in H. eauto.
  - intros [v H]. exists (k, v). split; [done|].
    by apply elem_of_map_to_list.
Qed.

(** A header of level [level] sets its own entry, clears the deeper
    ones and leaves the shallower ones. *)
Lemma header_step_lookup d hashes title k :
  header_step d (hashes, title) !! k =
    if decide (k = length hashes) then Some (strip title)
    else if decide (length hashes < k) then None
    else d !! k.
Proof.
  unfold header_step. simpl. set (level := length hashes).
  case_decide as Heq; [|case_decide as Hlt].
  - subst k. rewrite prune_keeps by lia. apply lookup_insert_eq.
  - destruct (<[level:=strip title]> d !! k) as [v|] eqn:Hk.
    + apply prune_deletes; [done|]. apply keys_elem. eauto.
    + by apply prune_none.
  - rewrite prune_keeps by lia. apply lookup_insert_ne. lia.
Qed.

End Headers.

(** Methods other than [split] do not read the header tracker. *)
Lemma extend_each_ext (f1 f2 : str -> option (list str)) parts :
  (forall part, f1 part = f2 part) ->
  extend_each f1 parts = extend_each f2 parts.
Proof.
  intros H. induction parts as [|part parts IH]; [done|]. simpl.
  by rewrite H, IH.
Qed.

Lemma recursive_split_fuel_set_tracker self t fuel text :
  recursive_split_fuel (set_tracker self t) fuel text =
  recursive_split_fuel self fuel text.
Proof.
  revert text. induction fuel as [|fuel IH]; intros text; [done|].
  simpl. destruct (truthy (strip text)); [|done]. simpl.
  destruct (_ <=? _); [done|].
  destruct (List.find _ _); [|done]. by apply extend_each_ext.
Qed.

Lemma recursive_split_set_tracker self t text :
  recursive_split (set_tracker self t) text = recursive_split self text.
Proof. apply recursive_split_fuel_set_tracker. Qed.

Lemma protected_loop_set_tracker self t text ranges segs last :
  protected_loop (set_tracker self t) text ranges segs last =
  protected_loop self text ranges segs last.
Proof.
  revert segs last. induction ranges as [|[s e] ranges IH];
    intros segs last; [done|].
  simpl. rewrite recursive_split_set_tracker.
  destruct (if last <? s then _ else _); [|done]. simpl. apply IH.
Qed.

Lemma split_preserving_protected_set_tracker self t text ranges :
  split_preserving_protected (set_tracker self t) text ranges =
  split_preserving_protected self text ranges.
Proof.
  unfold split_preserving_protected.
  rewrite protected_loop_set_tracker.
  destruct (protected_loop self text ranges [] 0) as [st|]; [|done].
  simpl. by rewrite recursive_split_set_tracker.
Qed.

Lemma merge_chunks_set_tracker self t segs :
  merge_chunks (set_tracker self t) segs = merge_chunks self segs.
Proof. reflexivity. Qed.

Lemma extract_protected_ranges_set_tracker self t text :
  extract_protected_ranges (set_tracker self t) text =
  extract_protected_ranges self text.
Proof. reflexivity. Qed.

(** ** The constructed splitter *)

Lemma init_separators_nonempty cs ov :
  Forall (fun sep => sep <> []) (separators (TextSplitter_init cs ov)).
Proof. simpl. repeat constructor; done. Qed.

Lemma init_separators_droppable cs ov :
  Forall (Forall (fun c => negb (droppable c) = false))
         (separators (TextSplitter_init cs ov)).
Proof. simpl. repeat constructor. Qed.

Lemma with_headers_within seg headers chunk :
  within seg chunk -> within seg (with_headers headers chunk).
Proof.
  intros (pre & post & ->). unfold with_headers.
  destruct (truthy headers); [|by exists pre, post].
  exists (headers ++ [nl; nl] ++ pre), post. by rewrite <- !app_assoc.
Qed.

Lemma overlap_of_empty self : overlap_of self [] = [].
Proof. unfold overlap_of. rewrite slice_from_empty. by destruct (_ <? _). Qed.

(** [split] is the header scan followed by the three stages on the
    text. *)
Lemma split_unfold self text :
  split self text =
    (fun segs =>
       (set_tracker self (update_from_text (header_tracker self) text),
        map (with_headers
               (get_headers (update_from_text (header_tracker self) text)))
            (merge_chunks self segs)))
    <$> split_preserving_protected self text
          (extract_protected_ranges self text).
Proof.
  unfold split.
  rewrite split_preserving_protected_set_tracker,
    extract_protected_ranges_set_tracker.
  by destruct (split_preserving_protected self text _).
Qed.

(** With a positive [chunk_size] a constructed splitter returns. *)
Lemma split_returns cs ov t text :
  0 < cs -> is_Some (split (set_tracker (TextSplitter_init cs ov) t) text).
Proof.
  intros Hcs. rewrite split_unfold, split_preserving_protected_set_tracker.
  destruct (split_preserving_protected_spec (TextSplitter_init cs ov) Hcs
              (init_separators_nonempty cs ov) text
              (extract_protected_ranges
                 (set_tracker (TextSplitter_init cs ov) t) text))
    as (segs & -> & _).
  done.
Qed.

(** With a [chunk_size] that is not positive the fixed-width loop is
    entered with a non-empty text and never left: no amount of fuel
    yields a result. *)
Lemma nonpositive_size_diverges cs ov fuel :
  cs <= 0 ->
  recursive_split_fuel (TextSplitter_init cs ov) fuel (lit "a") = None.
Proof.
  intros Hcs. destruct fuel as [|fuel]; [done|].
  assert (recursive_split_fuel (TextSplitter_init cs ov) (S fuel) (lit "a")
          = if 1 <=? cs then Some [lit "a"]
            else slice_loop cs (lit "a") 2 0 []) as -> by reflexivity.
  destruct (Z.leb_spec 1 cs); [lia|].
  by apply slice_loop_diverges.
Qed.

(** ** Losslessness of the segmentation *)

(** C1, as stated, fails: no range of [" a"] is protected, and its
    leading blank is in no segment. *)
Lemma segments_not_lossless :
  extract_protected_ranges TextSplitter_default doc_lead_space = [] /\
  split_preserving_protected TextSplitter_default doc_lead_space
    (extract_protected_ranges TextSplitter_default doc_lead_space)
    = Some [lit "a"] /\
  concat [lit "a"] <> doc_lead_space.
Proof. by vm_compute. Qed.

(** C1, amended: with a positive [chunk_size], for ranges that are sorted,
    do not overlap and lie in the text, [split_preserving_protected]
    returns, the text of every range is a segment, and the concatenation
    of the segments is the text up to droppable characters (whitespace
    and the three full-width sentence terminators): removing them from
    both gives the same string. *)
Theorem segments_keep_essence cs ov text ranges :
  0 < cs ->
  tiling 0 ranges (len text) = true ->
  exists segs,
    split_preserving_protected (TextSplitter_init cs ov) text ranges
      = Some segs /\
    (forall r, r ∈ ranges -> slice text (fst r) (snd r) ∈ segs) /\
    essence (concat segs) = essence text.
Proof.
  intros Hcs Htile.
  destruct (split_preserving_protected_essence (TextSplitter_init cs ov) Hcs
              (init_separators_nonempty cs ov)
              (init_separators_droppable cs ov) text ranges Htile)
    as (segs & Hsegs & Hessence).
  exists segs. split; [done|]. split; [|done].
  by apply (split_preserving_protected_regions (TextSplitter_init cs ov)).
Qed.

Lemma segments_keep_essence_witness :
  0 < 200 /\
  tiling 0 (extract_protected_ranges (TextSplitter_init 200 50) doc_mixed)
         (len doc_mixed) = true /\
  exists segs,
    split_preserving_protected (TextSplitter_init 200 50) doc_mixed
      (extract_protected_ranges (TextSplitter_init 200 50) doc_mixed)
      = Some segs /\
    (forall r,
       r ∈ extract_protected_ranges (TextSplitter_init 200 50) doc_mixed ->
       slice doc_mixed (fst r) (snd r) ∈ segs) /\
    essence (concat segs) = essence doc_mixed.
Proof.
  split; [lia|]. split; [vm_compute; reflexivity|].
  apply (segments_keep_essence 200 50 doc_mixed
           (extract_protected_ranges (TextSplitter_init 200 50) doc_mixed)).
  - lia.
  - vm_compute. reflexivity.
Defined.

(** ** Atomicity of protected ranges *)

Lemma code_block_alone ov :
  chunks_of (split (TextSplitter_init 200 ov) code_block_500)
    = Some [code_block_500].
Proof.
  rewrite split_unfold.
  assert (extract_protected_ranges (TextSplitter_init 200 ov) code_block_500
            = [(0, 500)]) as -> by (by vm_compute).
  assert (split_preserving_protected (TextSplitter_init 200 ov)
            code_block_500 [(0, 500)] = Some [code_block_500]) as ->
    by (by vm_compute).
  assert (get_headers (update_from_text
            (header_tracker (TextSplitter_init 200 ov)) code_block_500) = [])
    as -> by (by vm_compute).
  assert (merge_chunks (TextSplitter_init 200 ov) [code_block_500]
            = [code_block_500]) as Hmerge.
  { unfold merge_chunks. cbn [foldl].
    rewrite merge_step_overflow by (by vm_compute).
    by rewrite overlap_of_empty. }
  unfold chunks_of. cbn [fmap option_fmap option_map snd].
  by rewrite Hmerge.
Qed.

(** With a positive [chunk_size], [split] returns; whenever it returns,
    every detected protected range is one segment, lies as a whole within
    one emitted chunk, and, when it is longer than [chunk_size], is all of
    a chunk but the overlap carried from the chunk before, which [split]
    emits under the header path; a fenced block of 500 characters alone
    in the document is emitted as one chunk under [chunk_size = 200].
    This holds for nested ranges too, where the text of the outer range
    is emitted a second time, in pieces. *)
Lemma protected_range_atomic cs ov text :
  let self := TextSplitter_init cs ov in
  let path := get_headers (update_from_text HeaderTracker_init text) in
  (0 < cs -> is_Some (split self text)) /\
  (forall self' out,
     split self text = Some (self', out) ->
     exists segs,
       split_preserving_protected self text
         (extract_protected_ranges self text) = Some segs /\
       out = map (with_headers path) (merge_chunks self segs) /\
       forall r, r ∈ extract_protected_ranges self text ->
         let region := slice text (fst r) (snd r) in
         region ∈ segs /\
         (exists chunk, chunk ∈ out /\ within region chunk) /\
         (cs < len region ->
          exists i pre,
            merge_chunks self segs !! i = Some (pre ++ region) /\
            out !! i = Some (with_headers path (pre ++ region)) /\
            (pre = [] \/
             exists j prev,
               i = S j /\ merge_chunks self segs !! j = Some prev /\
               pre = overlap_of self prev))) /\
  chunks_of (split (TextSplitter_init 200 ov) code_block_500)
    = Some [code_block_500].
Proof.
  intros self path. split; [apply (split_returns cs ov HeaderTracker_init)|].
  split; [|apply code_block_alone].
  intros self' out Hsplit. rewrite split_unfold in Hsplit.
  destruct (split_preserving_protected self text _) as [segs|] eqn:Hsegs;
    [|done].
  injection Hsplit as _ <-. exists segs. split; [done|]. split; [done|].
  intros r Hr region.
  pose proof (split_preserving_protected_regions _ _ _ _ Hsegs r Hr) as Hin.
  assert (truthy region = true) as Ht.
  { apply protected_slice_truthy.
    by apply (extract_protected_ranges_bounds cs ov HeaderTracker_init). }
  split; [done|]. split.
  - destruct (merge_chunks_within self segs region Hin Ht)
      as (chunk & Hchunk & Hw).
    exists (with_headers path chunk). split.
    + apply list_elem_of_fmap. by exists chunk.
    + by apply with_headers_within.
  - intros Hbig.
    destruct (merge_chunks_oversized self segs region Hin Ht Hbig)
      as (i & pre & Hi & Hpre).
    exists i, pre. split; [done|]. split; [|done].
    change (get_headers _) with path. by rewrite list_lookup_fmap, Hi.
Qed.

Lemma protected_range_atomic_witness :
  0 < 200 /\
  split (TextSplitter_init 200 50) code_block_500 =
    Some (TextSplitter_init 200 50, [code_block_500]) /\
  200 < len (slice code_block_500 0 500) /\
  is_Some (split (TextSplitter_init 200 50) code_block_500) /\
  exists segs,
    split_preserving_protected (TextSplitter_init 200 50) code_block_500
      (extract_protected_ranges (TextSplitter_init 200 50) code_block_500)
      = Some segs /\
    exists i pre,
      merge_chunks (TextSplitter_init 200 50) segs !! i
        = Some (pre ++ slice code_block_500 0 500) /\
      (pre = [] \/
       exists j prev,
         i = S j /\
         merge_chunks (TextSplitter_init 200 50) segs !! j = Some prev /\
         pre = overlap_of (TextSplitter_init 200 50) prev).
Proof.
  assert (0 < 200) as Hcs by lia.
  assert (split (TextSplitter_init 200 50) code_block_500 =
          Some (TextSplitter_init 200 50, [code_block_500])) as Hsplit
    by (vm_compute; reflexivity).
  assert (200 < len (slice code_block_500 0 500)) as Hbig
    by (vm_compute; reflexivity).
  destruct (protected_range_atomic 200 50 code_block_500)
    as (Hret & Hatomic & _).
  split; [exact Hcs|]. split; [exact Hsplit|]. split; [exact Hbig|].
  split; [exact (Hret Hcs)|].
  destruct (Hatomic _ _ Hsplit) as (segs & Hsegs & _ & Hranges).
  exists segs. split; [exact Hsegs|].
  destruct (Hranges (0, 500)) as (_ & _ & Hover).
  { vm_compute. left. }
  destruct (Hover Hbig) as (i & pre & Hi & _ & Hpre).
  exists i, pre. split; [exact Hi|exact Hpre].
Defined.

(** C2 fails when one match lies inside another.  In [doc_nested_block]
    the fenced block is the range [(0, 500)] and the table row [|a|]
    inside it the range [(3, 6)].  The loop of
    [split_preserving_protected] emits the block, then the row, and sets
    [last_index] back to 6; the text from offset 6 to the end of the
    block, all of it inside the range [(0, 500)], is handed to
    [recursive_split] and cut at offsets 206 and 406.  The gaps and
    regions the loop has walked through add up to 997 characters of a
    text of 500.  With [chunk_size = 200] and [chunk_overlap = 50],
    [split] returns the block and four more chunks made of its parts:
    the fourth is [text[156:406]] and the fifth [text[356:500]], so
    chunks begin and end strictly inside the protected range. *)
Theorem nested_match_cuts_protected_block :
  let self := TextSplitter_default in
  let text := doc_nested_block in
  let ranges := extract_protected_ranges self text in
  ranges = [(0, 500); (3, 6)] /\
  len text = 500 /\
  len (concat (lace (map single (gaps_between text 0 ranges))
                    (regions_of text ranges))
         ++ slice_from text (end_of_ranges 0 ranges)) = 997 /\
  split_preserving_protected self text ranges =
    Some [text; lit "|a|"; slice text 6 206; slice text 206 406;
          slice text 406 500] /\
  chunks_of (split self text) =
    Some [text;
          slice text 450 500 ++ lit "|a|";
          slice text 453 500 ++ lit "|a|" ++ slice text 6 206;
          slice text 156 406;
          slice text 356 500].
Proof. vm_compute. repeat split; reflexivity. Qed.

(** ** The short-document scenario *)

(** C3, as stated, fails: the chunk is not the document with its header
    line replaced by the header path. *)
Lemma title_chunk_not_stripped :
  chunks_of (split (TextSplitter_init 200 50) doc_title) <>
  Some [lit "Title" ++ [nl; nl] ++ lit "Some short paragraph."].
Proof. by vm_compute. Qed.

(** C3, amended: on ["# Title\n\nSome short paragraph."] with
    [chunk_size = 200] and [chunk_overlap = 50], [split] returns exactly
    one chunk, the header path ["Title"], a blank line and the whole
    document, header line included. *)
Theorem title_scenario :
  chunks_of (split (TextSplitter_init 200 50) doc_title) =
  Some [lit "Title" ++ [nl; nl] ++ lit "# Title" ++ [nl; nl]
          ++ lit "Some short paragraph."].
Proof. by vm_compute. Qed.

(** ** Overlap between consecutive chunks *)

(** C4: for a non-negative [chunk_overlap], when [merge_chunks] emits [a]
    and then [b], [a] is not empty and the first
    [min(chunk_overlap, len a)] characters of [b] are the last so many
    characters of [a]. *)
Theorem merge_chunks_overlap_prefix self segs i a b :
  0 <= chunk_overlap self ->
  merge_chunks self segs !! i = Some a ->
  merge_chunks self segs !! S i = Some b ->
  let n := Z.to_nat (Z.min (chunk_overlap self) (len a)) in
  truthy a = true /\ take n b = drop (length a - n) a.
Proof.
  intros Hov Ha Hb. by apply (merge_consecutive_carry self Hov segs i).
Qed.

Lemma merge_chunks_overlap_prefix_witness :
  0 <= chunk_overlap (TextSplitter_init 5 2) /\
  merge_chunks (TextSplitter_init 5 2) [lit "abcde"; lit "fgh"] !! 0%nat
    = Some (lit "abcde") /\
  merge_chunks (TextSplitter_init 5 2) [lit "abcde"; lit "fgh"] !! 1%nat
    = Some (lit "defgh") /\
  truthy (lit "abcde") = true /\
  take 2 (lit "defgh") = drop 3 (lit "abcde").
Proof.
  split; [simpl; lia|]. split; [reflexivity|]. split; [reflexivity|].
  apply (merge_chunks_overlap_prefix (TextSplitter_init 5 2)
           [lit "abcde"; lit "fgh"] 0).
  - simpl. lia.
  - reflexivity.
  - reflexivity.
Defined.

(** ** The size of a chunk *)

(** With a positive overlap every chunk is within
    [chunk_size + chunk_overlap] or ends with a protected range longer
    than [chunk_size]. *)
Lemma chunk_size_bound_positive_overlap cs ov text :
  0 < cs -> 0 < ov ->
  let self := TextSplitter_init cs ov in
  exists segs,
    split_preserving_protected self text (extract_protected_ranges self text)
      = Some segs /\
    Forall (fun chunk =>
              len chunk <= cs + ov \/
              exists pre r,
                r ∈ extract_protected_ranges self text /\
                cs < len (slice text (fst r) (snd r)) /\
                chunk = pre ++ slice text (fst r) (snd r))
           (merge_chunks self segs).
Proof.
  intros Hcs Hov self.
  destruct (split_preserving_protected_spec self Hcs
              (init_separators_nonempty cs ov) text
              (extract_protected_ranges self text))
    as (segs & Hsegs & _ & Horigin).
  exists segs. split; [done|].
  pose proof (merge_chunks_bounded self Hov
    (fun seg => exists r, r ∈ extract_protected_ranges self text /\
                          cs < len seg /\
                          seg = slice text (fst r) (snd r)) segs) as H.
  eapply Forall_impl; [apply H|].
  - eapply Forall_impl; [exact Horigin|]. simpl.
    intros seg [Hle|(r & Hr & ->)] Hbig; [simpl in *; lia|].
    by exists r.
  - simpl. intros chunk [Hle|(pre & seg & (r & Hr & Hbig & ->) & ->)];
      [by left|].
    right. by exists pre, r.
Qed.

(** C5 at [chunk_overlap = 0]: on the three lines ["aaa"], ["bbb"],
    ["ccc"] with [chunk_size = 3] no range is protected, the carried text
    is the whole chunk instead of its last 0 characters, and the second
    and third chunk are 6 and 9 characters long, above
    [chunk_size + chunk_overlap = 3]; likewise three lines of 200
    characters under [chunk_size = 200] give chunks of 200, 400 and 600
    characters. *)
Theorem zero_overlap_exceeds_bound :
  let self := TextSplitter_init 3 0 in
  extract_protected_ranges self doc_three_lines = [] /\
  split_preserving_protected self doc_three_lines [] =
    Some [lit "aaa"; lit "bbb"; lit "ccc"] /\
  merge_chunks self [lit "aaa"; lit "bbb"; lit "ccc"] =
    [lit "aaa"; lit "aaabbb"; lit "aaabbbccc"] /\
  chunks_of (split self doc_three_lines) =
    Some [lit "aaa"; lit "aaabbb"; lit "aaabbbccc"] /\
  overlap_of self (lit "aaa") = lit "aaa" /\
  chunk_size self + chunk_overlap self < len (lit "aaabbb") /\
  extract_protected_ranges (TextSplitter_init 200 0) doc_three_long_lines
    = [] /\
  map len <$> chunks_of (split (TextSplitter_init 200 0) doc_three_long_lines)
    = Some [200; 400; 600].
Proof. by vm_compute. Qed.

(** ** The header scan *)

(** C6: [update_from_text] folds the header matches, which [re] yields
    in the order of the document; a header of level [L] sets entry [L] to
    the trimmed title, removes every entry of a level above [L] and keeps
    those below; a document whose headers are [# A], [## B], [# C] ends
    with the path ["C"]. *)
Theorem header_scan_clears_deeper_levels :
  (forall t text,
     ordered_from 0 (finditer header_pattern text) /\
     active_headers (update_from_text t text) =
     foldl header_step (active_headers t)
           (map (fun m => (group_text text m 1, group_text text m 2))
                (finditer header_pattern text))) /\
  (forall d hashes title k,
     header_step d (hashes, title) !! k =
       if decide (k = length hashes) then Some (strip title)
       else if decide (length hashes < k)%nat then None
       else d !! k) /\
  (forall text,
     findall2 header_pattern text =
       [(lit "#", lit "A"); (lit "##", lit "B"); (lit "#", lit "C")] ->
     get_headers (update_from_text HeaderTracker_init text) = lit "C").
Proof.
  split; [|split].
  - intros t text. split; [apply finditer_ordered|done].
  - apply header_step_lookup.
  - intros text Hheaders. unfold update_from_text. rewrite Hheaders.
    by vm_compute.
Qed.

Lemma header_scan_clears_deeper_levels_witness :
  findall2 header_pattern doc_abc =
    [(lit "#", lit "A"); (lit "##", lit "B"); (lit "#", lit "C")] /\
  get_headers (update_from_text HeaderTracker_init doc_abc) = lit "C".
Proof.
  split; [vm_compute; reflexivity|].
  apply (proj2 (proj2 header_scan_clears_deeper_levels) doc_abc).
  vm_compute. reflexivity.
Defined.

(** C7, as stated, fails on a splitter that has been used before: after
    [split] on ["# Old"], the call on ["## New\n\ntext"] prefixes its
    chunk with ["Old > New"], while one scan of that document alone
    gives ["New"], which is what a fresh splitter prefixes. *)
Lemma reused_splitter_path_spans_calls :
  exists self1 out1,
    split TextSplitter_default doc_old = Some (self1, out1) /\
    chunks_of (split self1 doc_new) =
      Some [lit "Old > New" ++ [nl; nl] ++ doc_new] /\
    get_headers (update_from_text HeaderTracker_init doc_new) = lit "New" /\
    chunks_of (split TextSplitter_default doc_new) =
      Some [lit "New" ++ [nl; nl] ++ doc_new].
Proof. eexists _, _. split; [by vm_compute|]. by vm_compute. Qed.

(** C7, amended: in a call of [split] every chunk gets the same header
    path, the one of the header map after a scan of the whole document
    that starts from the map the splitter holds when it is called (the
    empty map for a constructed splitter), its titles joined with
    [" > "] by ascending level; every chunk is prefixed with the path
    and a blank line when the path is not empty and is left unchanged
    otherwise, as it is when the map was empty and the document has no
    header. *)
Theorem split_header_path_global self text self' out :
  split self text = Some (self', out) ->
  let d := foldl header_step (active_headers (header_tracker self))
                 (findall2 header_pattern text) in
  let levels := merge_sort Nat.le (keys d) in
  let path := join (lit " > ") (map (fun k => d !!! k) levels) in
  Sorted Nat.le levels /\ levels ≡ₚ keys d /\
  active_headers (header_tracker self') = d /\
  exists segs,
    split_preserving_protected self text (extract_protected_ranges self text)
      = Some segs /\
    out = map (fun chunk => if truthy path then path ++ [nl; nl] ++ chunk
                            else chunk)
              (merge_chunks self segs) /\
    (forall i chunk,
       merge_chunks self segs !! i = Some chunk ->
       out !! i = Some (if truthy path then path ++ [nl; nl] ++ chunk
                        else chunk)) /\
    (active_headers (header_tracker self) = ∅ ->
     findall2 header_pattern text = [] -> out = merge_chunks self segs).
Proof.
  intros Hsplit d levels path.
  split; [apply Sorted_merge_sort; apply _|].
  split; [apply merge_sort_Permutation|].
  rewrite split_unfold in Hsplit.
  destruct (split_preserving_protected _ _ _) as [segs|]; [|done].
  injection Hsplit as <- <-. split; [done|].
  exists segs. split; [done|]. split; [done|]. split.
  - intros i chunk Hi. rewrite list_lookup_fmap, Hi. reflexivity.
  - intros Hempty Hnone. unfold update_from_text.
    rewrite Hnone, Hempty. simpl.
    unfold with_headers. simpl. by rewrite map_id.
Qed.

Lemma split_header_path_global_witness :
  split (TextSplitter_init 10 2) doc_two_levels =
    Some (set_tracker (TextSplitter_init 10 2)
            (update_from_text HeaderTracker_init doc_two_levels),
          [lit "A > B" ++ [nl; nl] ++ lit "# A## B";
           lit "A > B" ++ [nl; nl] ++ lit " Bxxxxxxxx";
           lit "A > B" ++ [nl; nl] ++ lit "xxyyyyyyyy"]) /\
  exists segs,
    split_preserving_protected (TextSplitter_init 10 2) doc_two_levels
      (extract_protected_ranges (TextSplitter_init 10 2) doc_two_levels)
      = Some segs /\
    [lit "A > B" ++ [nl; nl] ++ lit "# A## B";
     lit "A > B" ++ [nl; nl] ++ lit " Bxxxxxxxx";
     lit "A > B" ++ [nl; nl] ++ lit "xxyyyyyyyy"] =
    map (fun chunk => lit "A > B" ++ [nl; nl] ++ chunk)
        (merge_chunks (TextSplitter_init 10 2) segs).
Proof.
  assert (split (TextSplitter_init 10 2) doc_two_levels =
    Some (set_tracker (TextSplitter_init 10 2)
            (update_from_text HeaderTracker_init doc_two_levels),
          [lit "A > B" ++ [nl; nl] ++ lit "# A## B";
           lit "A > B" ++ [nl; nl] ++ lit " Bxxxxxxxx";
           lit "A > B" ++ [nl; nl] ++ lit "xxyyyyyyyy"])) as Hsplit
    by (vm_compute; reflexivity).
  split; [exact Hsplit|].
  destruct (split_header_path_global _ doc_two_levels _ _ Hsplit)
    as (_ & _ & _ & segs & Hsegs & Hout & _).
  exists segs. split; [exact Hsegs|]. exact Hout.
Defined.

(** ** The pieces of [recursive_split] *)

(** C8, as stated, fails: of ["a"], 400 blanks and ["b"] the second
    piece is 200 blanks. *)
Lemma recursive_split_blank_piece :
  recursive_split TextSplitter_default doc_blank_run =
    Some [lit "a" ++ repeat c_space 199; repeat c_space 200;
          repeat c_space 1 ++ lit "b"] /\
  strip (repeat c_space 200) = [].
Proof. by vm_compute. Qed.

(** C8, amended: with a positive [chunk_size], [recursive_split] returns,
    every piece is non-empty, and every piece whose length is not exactly
    [chunk_size] is non-empty after trimming. *)
Theorem recursive_split_pieces_nonempty cs ov text :
  0 < cs ->
  exists res,
    recursive_split (TextSplitter_init cs ov) text = Some res /\
    Forall (fun piece =>
              truthy piece = true /\
              (len piece <> cs -> truthy (strip piece) = true)) res.
Proof.
  intros Hcs.
  destruct (recursive_split_total (TextSplitter_init cs ov) Hcs
              (init_separators_nonempty cs ov) text) as [res Hres].
  exists res. split; [done|].
  by apply (recursive_split_piece_shape (TextSplitter_init cs ov) Hcs
              (init_separators_nonempty cs ov) text).
Qed.

Lemma recursive_split_pieces_nonempty_witness :
  0 < 200 /\
  exists res,
    recursive_split (TextSplitter_init 200 50) doc_blank_run = Some res /\
    Forall (fun piece =>
              truthy piece = true /\
              (len piece <> 200 -> truthy (strip piece) = true)) res.
Proof.
  split; [lia|].
  apply (recursive_split_pieces_nonempty 200 50 doc_blank_run). lia.
Defined.

(** ** Totality *)

(** C9, as stated, fails: with [chunk_size = 0] the fixed-width loop of
    [recursive_split] on ["a"] never ends, whatever the fuel, and
    [split] does not return. *)
Lemma zero_chunk_size_never_returns :
  split (TextSplitter_init 0 50) (lit "a") = None /\
  forall fuel,
    recursive_split_fuel (TextSplitter_init 0 50) fuel (lit "a") = None.
Proof.
  split; [by vm_compute|].
  intros fuel. by apply nonpositive_size_diverges.
Qed.

(** C9, amended: [split] of the empty string returns no chunk, whatever
    the configuration and the header map; with a [chunk_size] of at
    least 1, [recursive_split], [split_preserving_protected] and [split]
    return on every text, the other methods being total functions of
    the model. *)
Theorem pipeline_total cs ov :
  (forall t, chunks_of (split (set_tracker (TextSplitter_init cs ov) t) [])
             = Some []) /\
  (0 < cs ->
   forall text,
     is_Some (recursive_split (TextSplitter_init cs ov) text) /\
     (forall ranges,
        is_Some (split_preserving_protected (TextSplitter_init cs ov) text
                   ranges)) /\
     (forall t,
        is_Some (split (set_tracker (TextSplitter_init cs ov) t) text))).
Proof.
  split; [done|]. intros Hcs text.
  pose proof (init_separators_nonempty cs ov) as Hsep.
  split; [by apply recursive_split_total|]. split.
  - intros ranges.
    destruct (split_preserving_protected_spec (TextSplitter_init cs ov)
                Hcs Hsep text ranges) as (segs & -> & _). done.
  - intros t. by apply split_returns.
Qed.

Lemma pipeline_total_witness :
  0 < 200 /\
  is_Some (recursive_split (TextSplitter_init 200 50) doc_mixed) /\
  (forall ranges,
     is_Some (split_preserving_protected (TextSplitter_init 200 50) doc_mixed
                ranges)) /\
  (forall t,
     is_Some (split (set_tracker (TextSplitter_init 200 50) t) doc_mixed)).
Proof.
  split; [lia|]. apply (proj2 (pipeline_total 200 50)). lia.
Defined.

(** ** State across calls *)

(** C10, as stated, fails: after [split] on ["# A"] the same splitter
    prefixes the chunk of ["b"] with ["A"], a fresh one does not. *)
Lemma second_call_differs :
  exists self1 out1,
    split TextSplitter_default doc_header_a = Some (self1, out1) /\
    chunks_of (split self1 doc_plain_b) = Some [lit "A" ++ [nl; nl] ++ lit "b"]
    /\
    chunks_of (split TextSplitter_default doc_plain_b) = Some [lit "b"] /\
    chunks_of (split self1 doc_plain_b) <>
    chunks_of (split TextSplitter_default doc_plain_b).
Proof. eexists _, _. split; [by vm_compute|]. by vm_compute. Qed.

(** C10, amended: the range list and the segment list belong to the
    call, the header map belongs to the splitter.  After a first call the
    splitter is the constructed one with the header map of the first
    document; a second call scans on from that map, and its chunks are
    those of a fresh splitter under the path of the continued scan; both
    calls agree when the first document has no header. *)
Theorem split_carries_header_map cs ov text1 text2 self1 out1 :
  split (TextSplitter_init cs ov) text1 = Some (self1, out1) ->
  let self := TextSplitter_init cs ov in
  let t1 := update_from_text HeaderTracker_init text1 in
  let t2 := update_from_text t1 text2 in
  let t2' := update_from_text HeaderTracker_init text2 in
  let body := fun t segs =>
    (set_tracker self t,
     map (with_headers (get_headers t)) (merge_chunks self segs)) in
  let segments :=
    split_preserving_protected self text2
      (extract_protected_ranges self text2) in
  self1 = set_tracker self t1 /\
  split self1 text2 = body t2 <$> segments /\
  split self text2 = body t2' <$> segments /\
  (findall2 header_pattern text1 = [] ->
   split self1 text2 = split self text2).
Proof.
  intros Hsplit self t1 t2 t2' body segments.
  rewrite split_unfold in Hsplit.
  destruct (split_preserving_protected _ _ _) as [segs1|]; [|done].
  injection Hsplit as <- _.
  assert (split (set_tracker self t1) text2 = body t2 <$> segments) as H1.
  { rewrite split_unfold, split_preserving_protected_set_tracker.
    reflexivity. }
  assert (split self text2 = body t2' <$> segments) as H2.
  { by rewrite split_unfold. }
  split; [done|]. split; [done|]. split; [done|].
  intros Hnone. transitivity (body t2 <$> segments); [exact H1|].
  rewrite H2.
  assert (t1 = HeaderTracker_init) as Ht1.
  { unfold t1, update_from_text. by rewrite Hnone. }
  unfold t2. by rewrite Ht1.
Qed.

Lemma split_carries_header_map_witness :
  split (TextSplitter_init 200 50) doc_header_a =
    Some (set_tracker (TextSplitter_init 200 50)
            (update_from_text HeaderTracker_init doc_header_a),
          [lit "A" ++ [nl; nl] ++ lit "# A"]) /\
  split (set_tracker (TextSplitter_init 200 50)
           (update_from_text HeaderTracker_init doc_header_a)) doc_plain_b =
    (fun segs =>
       (set_tracker (TextSplitter_init 200 50)
          (update_from_text
             (update_from_text HeaderTracker_init doc_header_a) doc_plain_b),
        map (with_headers
               (get_headers
                  (update_from_text
                     (update_from_text HeaderTracker_init doc_header_a)
                     doc_plain_b)))
            (merge_chunks (TextSplitter_init 200 50) segs)))
    <$> split_preserving_protected (TextSplitter_init 200 50) doc_plain_b
          (extract_protected_ranges (TextSplitter_init 200 50) doc_plain_b).
Proof.
  assert (split (TextSplitter_init 200 50) doc_header_a =
    Some (set_tracker (TextSplitter_init 200 50)
            (update_from_text HeaderTracker_init doc_header_a),
          [lit "A" ++ [nl; nl] ++ lit "# A"])) as Hsplit
    by (vm_compute; reflexivity).
  split; [exact Hsplit|].
  exact (proj1 (proj2 (split_carries_header_map 200 50 doc_header_a
                         doc_plain_b _ _ Hsplit))).
Defined.

(** * Further properties of the code *)

(** ** More on [merge_chunks] *)

Section MergeMore.

Variable self : TextSplitter.

Local Abbreviation step := (merge_step self).

Lemma merge_emits_truthy st segs :
  Forall (fun c => truthy c = true) (fst st) ->
  Forall (fun c => truthy c = true) (merge_finish (foldl step st segs)).
Proof.
  revert st. induction segs as [|seg segs IH]; intros [chunks cur] Hall.
  - unfold merge_finish. simpl in *. destruct (truthy cur) eqn:Ht; [|done].
    apply Forall_app. split; [done|]. by constructor.
  - simpl. apply IH.
    destruct (merge_step_cases self chunks cur seg) as [[_ ->]|[_ ->]];
      simpl in *; [|done].
    destruct (truthy cur) eqn:Ht; [|done].
    apply Forall_app. split; [done|]. by constructor.
Qed.

Lemma merge_all_fit segs cur :
  len cur + len (concat segs) <= chunk_size self ->
  foldl step ([], cur) segs = ([], cur ++ concat segs).
Proof.
  revert cur. induction segs as [|seg segs IH]; intros cur Hfit; simpl.
  - by rewrite app_nil_r.
  - simpl in Hfit. rewrite len_app in Hfit.
    pose proof (len_nonneg (concat segs)).
    rewrite merge_step_fits by lia.
    rewrite IH by (rewrite len_app; lia). by rewrite <- app_assoc.
Qed.

Lemma default_last_cons (p c : str) (l : list str) :
  default p (last (c :: l)) = default c (last l).
Proof.
  revert p c. induction l as [|x l IH]; intros p c; [done|].
  change (last (c :: x :: l)) with (last (x :: l)).
  by rewrite (IH p x), (IH c x).
Qed.

Lemma rebuild_snoc prev bodies body :
  rebuild self prev (bodies ++ [body]) =
  rebuild self prev bodies ++
    [overlap_of self (default prev (last (rebuild self prev bodies)))
       ++ body].
Proof.
  revert prev. induction bodies as [|b bodies IH]; intros prev; [done|].
  simpl. rewrite IH. by rewrite default_last_cons.
Qed.

Lemma rebuild_inv_emit seen chunks cur :
  rebuild_inv self seen (chunks, cur) ->
  exists bodies,
    chunks ++ [cur] = rebuild self [] bodies /\
    concat bodies = concat seen.
Proof.
  intros (bodies & pending & Hc & Hcur & Hcat). simpl in *.
  exists (bodies ++ [pending]). split.
  - rewrite rebuild_snoc, <- Hc. by rewrite Hcur.
  - rewrite concat_app. simpl. by rewrite app_nil_r.
Qed.

Lemma rebuild_inv_step seen st seg :
  rebuild_inv self seen st -> rebuild_inv self (seen ++ [seg]) (step st seg).
Proof.
  destruct st as [chunks cur]. intros Hinv.
  assert (concat (seen ++ [seg]) = concat seen ++ seg) as Hseen.
  { rewrite concat_app. simpl. by rewrite app_nil_r. }
  destruct (merge_step_cases self chunks cur seg) as [[_ ->]|[_ ->]].
  - destruct (truthy cur) eqn:Ht.
    + destruct (rebuild_inv_emit _ _ _ Hinv) as (bodies & Hb & Hcat).
      exists bodies, seg. simpl. split; [done|]. split.
      * by rewrite last_snoc.
      * by rewrite Hseen, Hcat.
    + destruct Hinv as (bodies & pending & Hc & Hcur & Hcat). simpl in *.
      apply truthy_false in Ht. rewrite Ht in Hcur.
      symmetry in Hcur. apply app_eq_nil in Hcur as [Ho ->].
      exists bodies, seg. split; [done|]. split.
      * simpl. rewrite Ht, Ho. unfold overlap_of.
        rewrite slice_from_empty. by destruct (_ <? _).
      * rewrite Hseen, <- Hcat. by rewrite app_nil_r.
  - destruct Hinv as (bodies & pending & Hc & Hcur & Hcat). simpl in *.
    exists bodies, (pending ++ seg). split; [done|]. split.
    + simpl. by rewrite Hcur, <- app_assoc.
    + by rewrite Hseen, <- Hcat, <- app_assoc.
Qed.

Lemma rebuild_inv_foldl seen st segs :
  rebuild_inv self seen st -> rebuild_inv self (seen ++ segs) (foldl step st segs).
Proof.
  revert seen st. induction segs as [|seg segs IH]; intros seen st H.
  - by rewrite app_nil_r.
  - simpl. replace (seen ++ seg :: segs) with ((seen ++ [seg]) ++ segs)
      by (by rewrite <- app_assoc).
    by apply IH, rebuild_inv_step.
Qed.

End MergeMore.

(** ** More on [HeaderTracker] *)

Section HeadersMore.

Local Open Scope nat_scope.

Implicit Types (d : gmap nat (list N)) (ms : list (list N * list N)).

(** A level at or above some scanned header does not depend on the map
    the scan started from. *)
Lemma scan_forgets ms d d' k :
  (exists m, m ∈ ms /\ length (fst m) <= k) ->
  foldl header_step d ms !! k = foldl header_step d' ms !! k.
Proof.
  induction ms as [|[h title] ms IH] using rev_ind.
  - intros (m & Hm & _). by apply elem_of_nil in Hm.
  - intros (m & Hm & Hk). rewrite !foldl_app. simpl.
    rewrite !header_step_lookup.
    case_decide; [done|]. case_decide; [done|].
    apply IH. apply elem_of_app in Hm as [Hm|Hm]; [by exists m|].
    apply list_elem_of_singleton in Hm as ->. simpl in *. lia.
Qed.

(** A level below every scanned header is left as it was. *)
Lemma scan_keeps ms d k :
  (forall m, m ∈ ms -> k < length (fst m)) ->
  foldl header_step d ms !! k = d !! k.
Proof.
  induction ms as [|[h title] ms IH] using rev_ind; [done|].
  intros Hall. rewrite foldl_app. simpl. rewrite header_step_lookup.
  assert (k < length h) as Hk.
  { apply (Hall (h, title)). apply elem_of_app. right. by left. }
  case_decide; [lia|]. case_decide; [lia|].
  apply IH. intros m Hm. apply Hall. apply elem_of_app. by left.
Qed.

Lemma scan_idempotent ms d :
  foldl header_step (foldl header_step d ms) ms = foldl header_step d ms.
Proof.
  apply map_eq. intros k.
  destruct (decide (Exists (fun m => length (fst m) <= k) ms)) as [Hex|Hno].
  - apply scan_forgets. apply Exists_exists in Hex. done.
  - apply scan_keeps. intros m Hm.
    destruct (decide (k < length m.1)) as [|Hge]; [done|].
    exfalso. apply Hno. apply Exists_exists. exists m. split; [done|lia].
Qed.

End HeadersMore.

Lemma update_from_text_idempotent_aux t text :
  update_from_text (update_from_text t text) text = update_from_text t text.
Proof.
  unfold update_from_text. simpl. f_equal. apply scan_idempotent.
Qed.

Lemma join_snoc (sep : str) (l : list str) (x : str) :
  join sep (l ++ [x]) = if l is [] then x else join sep l ++ sep ++ x.
Proof.
  induction l as [|y l IH]; [done|]. simpl.
  destruct l as [|z l]; [done|].
  simpl in *. rewrite IH. by rewrite <- !app_assoc.
Qed.

Lemma sorted_last_max (l : list nat) (x : nat) :
  Sorted Nat.le l -> x ∈ l -> (forall y, y ∈ l -> (y <= x)%nat) ->
  exists l0, l = l0 ++ [x].
Proof.
  intros Hs Hx Hmax.
  apply (Sorted_StronglySorted Nat.le) in Hs.
  destruct l as [|y l _] using rev_ind; [by apply elem_of_nil in Hx|].
  exists l. f_equal. f_equal.
  assert (y <= x)%nat.
  { apply Hmax. apply elem_of_app. right. by left. }
  assert (x <= y)%nat; [|lia].
  apply elem_of_app in Hx as [Hx|Hx].
  - apply (StronglySorted_app_1_elem_of _ _ _ _ _ Hs Hx). by left.
  - apply list_elem_of_singleton in Hx. lia.
Qed.

(** ** More on [recursive_split] *)

Lemma extend_each_None (f : str -> option (list str)) parts part :
  part ∈ parts -> f part = None -> extend_each f parts = None.
Proof.
  intros Hin Hnone. induction parts as [|p parts IH].
  - by apply elem_of_nil in Hin.
  - simpl. apply elem_of_cons in Hin as [<-|Hin].
    + by rewrite Hnone.
    + destruct (f p); [|done]. simpl. by rewrite IH.
Qed.

Lemma extend_each_all_empty (f : str -> option (list str)) parts :
  Forall (fun part => f part = Some []) parts ->
  extend_each f parts = Some [].
Proof.
  induction 1 as [|p parts Hp _ IH]; [done|]. simpl. by rewrite Hp, IH.
Qed.

Lemma essence_concat_nil (l : list str) :
  essence (concat l) = [] -> Forall (fun p => essence p = []) l.
Proof.
  induction l as [|p l IH]; [done|]. simpl. rewrite essence_app.
  intros [Hp Hl]%app_eq_nil. constructor; [done|]. by apply IH.
Qed.

Lemma essence_concat_some (l : list str) :
  essence (concat l) <> [] -> exists p, p ∈ l /\ essence p <> [].
Proof.
  induction l as [|p l IH]; [done|]. simpl. rewrite essence_app.
  destruct (essence p) eqn:Hp.
  - simpl. intros (q & Hq & Hne)%IH. exists q. split; [by right|done].
  - intros _. exists p. split; [by left|]. by rewrite Hp.
Qed.

Lemma contains_last c (t : str) : contains [c] (t ++ [c]) = true.
Proof.
  induction t as [|x t IH]; simpl.
  - by rewrite N.eqb_refl.
  - rewrite IH. by rewrite orb_true_r.
Qed.

Lemma essence_truthy (s : str) : essence s <> [] -> truthy s = true.
Proof. by destruct s. Qed.

Section NonPositive.

Variables cs ov : Z.
Hypothesis size_nonpos : cs <= 0.

Local Abbreviation self := (TextSplitter_init cs ov).

(** A droppable text that is not blank holds one of the separators. *)
Lemma droppable_has_separator (s : str) :
  truthy (strip s) = true -> essence s = [] ->
  List.find (fun sep => contains sep (strip s)) (separators self) <> None.
Proof.
  intros Ht Hess Hnone.
  destruct (strip s) as [|final body _] eqn:Hs using rev_ind; [done|].
  pose proof (strip_last _ _ _ Hs) as Hfinal.
  assert (droppable final = true) as Hdrop.
  { rewrite <- essence_strip, Hs, essence_app in Hess.
    apply app_eq_nil in Hess as [_ Hess]. simpl in Hess.
    by destruct (droppable final). }
  unfold droppable in Hdrop. rewrite Hfinal in Hdrop. simpl in Hdrop.
  assert (forall sep, In sep (separators self) ->
            contains sep (body ++ [final]) = false) as Hall.
  { intros sep. by apply (find_none _ _ Hnone). }
  apply orb_prop in Hdrop as [[H|H]%orb_prop|H]; apply N.eqb_eq in H;
    subst final.
  - pose proof (contains_last c_ideo_stop body) as Hc.
    rewrite Hall in Hc; [done|]. simpl. tauto.
  - pose proof (contains_last c_fw_bang body) as Hc.
    rewrite Hall in Hc; [done|]. simpl. tauto.
  - pose proof (contains_last c_fw_quest body) as Hc.
    rewrite Hall in Hc; [done|]. simpl. tauto.
Qed.

Lemma nonpositive_size_empty fuel text :
  (length text < fuel)%nat -> essence text = [] ->
  recursive_split_fuel self fuel text = Some [].
Proof.
  revert text. induction fuel as [|fuel IH]; intros text Hfuel Hess; [lia|].
  pose proof (strip_length text) as Hlen.
  cbn [recursive_split_fuel].
  destruct (truthy (strip text)) eqn:Ht; [|done]. cbn [negb].
  destruct (Z.leb_spec (len (strip text)) (chunk_size self)) as [Hle|_].
  { apply truthy_len in Ht. simpl in Hle. lia. }
  destruct (List.find _ (separators self)) as [sep|] eqn:Hfind.
  - apply find_some in Hfind as [Hin Hc].
    assert (sep <> []) as Hne.
    { apply list_elem_of_In in Hin.
      by eapply (proj1 (Forall_forall _ _) (init_separators_nonempty cs ov)). }
    apply extend_each_all_empty. apply Forall_forall. intros part Hpart.
    apply IH.
    + apply (split_aux_length_lt _ _ _ Hne Hc) in Hpart. lia.
    + assert (essence (concat (py_split (strip text) sep)) = []) as Hcat.
      { unfold essence, py_split. rewrite split_aux_filter; [|done|].
        - fold (essence (strip text)). by rewrite essence_strip.
        - apply list_elem_of_In in Hin.
          by eapply (proj1 (Forall_forall _ _)
                       (init_separators_droppable cs ov)). }
      apply essence_concat_nil in Hcat.
      by eapply (proj1 (Forall_forall _ _) Hcat).
  - by destruct (droppable_has_separator text Ht Hess).
Qed.

Lemma nonpositive_size_loops fuel text :
  essence text <> [] -> recursive_split_fuel self fuel text = None.
Proof.
  revert text. induction fuel as [|fuel IH]; intros text Hess; [done|].
  cbn [recursive_split_fuel].
  assert (truthy (strip text) = true) as Ht.
  { apply essence_truthy. by rewrite essence_strip. }
  rewrite Ht. cbn [negb].
  destruct (Z.leb_spec (len (strip text)) (chunk_size self)) as [Hle|_].
  { apply truthy_len in Ht. simpl in Hle. lia. }
  destruct (List.find _ (separators self)) as [sep|] eqn:Hfind.
  - apply find_some in Hfind as [Hin Hc]. apply list_elem_of_In in Hin.
    assert (essence (concat (py_split (strip text) sep)) <> []) as Hcat.
    { unfold essence, py_split. rewrite split_aux_filter.
      - fold (essence (strip text)). by rewrite essence_strip.
      - by eapply (proj1 (Forall_forall _ _)
                     (init_separators_nonempty cs ov)).
      - by eapply (proj1 (Forall_forall _ _)
                     (init_separators_droppable cs ov)). }
    apply essence_concat_some in Hcat as (part & Hpart & Hne).
    eapply extend_each_None; [exact Hpart|]. by apply IH.
  - apply slice_loop_diverges; [done|lia|]. by apply truthy_len.
Qed.

End NonPositive.

(** ** More on [extract_protected_ranges] *)

Lemma range_leb_le a b : range_leb a b = true <-> range_le a b.
Proof. unfold range_leb, range_le. lia. Qed.

Lemma insert_range_sorted x l :
  Sorted range_le l -> Sorted range_le (insert_range x l).
Proof.
  induction 1 as [|y l Hs IH Hhd]; simpl.
  - repeat constructor.
  - destruct (range_leb x y) eqn:Hxy.
    + constructor; [by constructor|]. constructor. by apply range_leb_le.
    + constructor; [done|].
      assert (range_le y x) as Hyx.
      { unfold range_leb, range_le in *. lia. }
      destruct l as [|z l]; simpl; [by constructor|].
      destruct (range_leb x z); constructor; [done|].
      by inversion Hhd.
Qed.

Lemma sort_ranges_sorted l : Sorted range_le (sort_ranges l).
Proof.
  induction l as [|x l IH]; simpl; [constructor|].
  by apply insert_range_sorted.
Qed.

Lemma insert_range_perm x l : insert_range x l ≡ₚ x :: l.
Proof.
  induction l as [|y l IH]; simpl; [done|].
  destruct (range_leb x y); [done|]. rewrite IH. apply Permutation_swap.
Qed.

Lemma sort_ranges_perm l : sort_ranges l ≡ₚ l.
Proof.
  induction l as [|x l IH]; simpl; [done|].
  by rewrite insert_range_perm, IH.
Qed.

#[local] Instance range_le_trans : Transitive range_le.
Proof. intros a b c. unfold range_le. lia. Qed.

(** *** What a match must read *)

Section Needs.

Variable x : char.

Local Open Scope nat_scope.

Lemma repeat_loop_reads body must greedy lo hi :
  reads x must body ->
  forall fuel count c g k res,
    repeat_loop body greedy lo hi fuel count c g k = Some res ->
    exists c' g' w,
      c_rest c = w ++ c_rest c' /\
      (count < lo -> must = true -> x ∈ w) /\
      k c' g' = Some res.
Proof.
  intros Hbody. induction fuel as [|fuel IH]; intros count c g k res;
    [done|]. simpl.
  match goal with
  | |- context [if below hi count then ?a else ?b] =>
      set (again := if below hi count then a else b)
  end.
  assert (again = Some res ->
          exists c' g' w,
            c_rest c = w ++ c_rest c' /\ (must = true -> x ∈ w) /\
            k c' g' = Some res) as Hagain.
  { unfold again. destruct (below hi count); [|done]. intros H.
    apply Hbody in H as (c1 & g1 & w1 & Hw1 & Hx1 & H).
    destruct (c_pos c <? c_pos c1); [|done].
    apply IH in H as (c' & g' & w2 & Hw2 & _ & H).
    exists c', g', (w1 ++ w2). rewrite Hw1, Hw2, <- app_assoc.
    split; [done|]. split; [|done].
    intros Hm. apply elem_of_app. left. by apply Hx1. }
  assert (lo <= count -> k c g = Some res ->
          exists c' g' w,
            c_rest c = w ++ c_rest c' /\
            (count < lo -> must = true -> x ∈ w) /\
            k c' g' = Some res) as Hdone.
  { intros Hle H. exists c, g, []. split; [done|]. split; [lia|done]. }
  assert (again = Some res ->
          exists c' g' w,
            c_rest c = w ++ c_rest c' /\
            (count < lo -> must = true -> x ∈ w) /\
            k c' g' = Some res) as Hagain'.
  { intros H. destruct (Hagain H) as (c' & g' & w & ? & ? & ?).
    exists c', g', w. auto. }
  destruct (Nat.ltb_spec count lo); [done|].
  destruct greedy; unfold or_else.
  - destruct again; [|by auto]. auto.
  - destruct (k c g); [by auto|]. auto.
Qed.

Lemma rmatch_reads r : reads x (needs x r) (rmatch r).
Proof.
  induction r as [cc|r1 IH1 r2 IH2| | |greedy lo hi r IH|i r IH];
    intros c g k res; cbn [rmatch needs].
  - destruct (c_rest c) as [|y rest] eqn:Hrest; [done|].
    destruct (cclass_matches cc y) eqn:Hy; [|done]. intros H.
    exists (Cursor (S (c_pos c)) (Some y) rest), g, [y].
    split; [done|]. split; [|exact H].
    destruct cc; try done. simpl in Hy. intros Hc.
    apply N.eqb_eq in Hy, Hc. subst. by left.
  - intros H. apply IH1 in H as (c1 & g1 & w1 & Hw1 & Hx1 & H).
    apply IH2 in H as (c2 & g2 & w2 & Hw2 & Hx2 & H).
    exists c2, g2, (w1 ++ w2). rewrite Hw1, Hw2, <- app_assoc.
    split; [done|]. split; [|done].
    intros [Hn|Hn]%orb_prop; apply elem_of_app; auto.
  - destruct (at_bol c); [|done]. intros H. by exists c, g, [].
  - destruct (at_eol c); [|done]. intros H. by exists c, g, [].
  - intros H. eapply repeat_loop_reads in H as (c' & g' & w & Hw & Hx & H);
      [|exact IH].
    exists c', g', w. split; [done|]. split; [|done].
    intros [Hlo Hn]%andb_prop. apply Hx; [|done].
    by apply Nat.ltb_lt in Hlo.
  - intros H. apply IH in H as (c' & g' & w & Hw & Hx & H).
    by exists c', ((i, (c_pos c, c_pos c')) :: g'), w.
Qed.

Lemma search_loop_reads r rest pos prev m :
  needs x r = true -> search_loop r pos prev rest = Some m -> x ∈ rest.
Proof.
  intros Hn. revert pos prev.
  induction rest as [|y rest IH]; intros pos prev; simpl; unfold match_at.
  - destruct (rmatch r _ _ _) eqn:Hm; [|done]. intros _.
    apply rmatch_reads in Hm as (c' & g' & w & Hw & Hx & _).
    simpl in Hw. rewrite Hw. apply elem_of_app. left. by apply Hx.
  - destruct (rmatch r _ _ _) eqn:Hm.
    + intros _. apply rmatch_reads in Hm as (c' & g' & w & Hw & Hx & _).
      simpl in Hw. rewrite Hw. apply elem_of_app. left. by apply Hx.
    + intros H. right. by eapply IH.
Qed.

(** Without [x] in the text a pattern that needs [x] has no match. *)
Lemma finditer_needs r text :
  needs x r = true -> x ∉ text -> finditer r text = [].
Proof.
  intros Hn Hx. unfold finditer. simpl. unfold search. simpl.
  destruct (search_loop r 0 None text) eqn:Hs; [|done].
  by apply search_loop_reads in Hs.
Qed.

End Needs.

(** ** The captures of the header pattern *)

Section Captures.

Local Open Scope nat_scope.

(** A repetition of one character class reads a run of characters of the
    class, within the bounds of the repetition, and leaves the groups as
    they are. *)
Lemma repeat_class_run cc greedy lo hi fuel count c g k res :
  repeat_loop (rmatch (RChar cc)) greedy lo hi fuel count c g k = Some res ->
  exists c' w,
    c_rest c = w ++ c_rest c' /\ c_pos c' = c_pos c + length w /\
    Forall (fun x => cclass_matches cc x = true) w /\
    lo - count <= length w /\
    (forall h, hi = Some h -> length w <= h - count) /\
    k c' g = Some res.
Proof.
  revert count c. induction fuel as [|fuel IH]; intros count c; [done|].
  cbn [repeat_loop].
  match goal with
  | |- context [if below hi count then ?a else ?b] =>
      set (again := if below hi count then a else b)
  end.
  assert (again = Some res ->
    exists c' w,
      c_rest c = w ++ c_rest c' /\ c_pos c' = c_pos c + length w /\
      Forall (fun x => cclass_matches cc x = true) w /\
      lo - count <= length w /\
      (forall h, hi = Some h -> length w <= h - count) /\
      k c' g = Some res) as Hagain.
  { unfold again. destruct (below hi count) eqn:Hbelow; [|done].
    cbn [rmatch]. destruct (c_rest c) as [|x rest] eqn:Hrest; [done|].
    destruct (cclass_matches cc x) eqn:Hx; [|done].
    cbn [c_pos]. destruct (c_pos c <? S (c_pos c)); [|done].
    intros H. apply IH in H as (c' & w & Hw & Hp & Hall & Hlo & Hhi & H).
    cbn [c_rest c_pos] in Hw, Hp.
    exists c', (x :: w). rewrite Hw. simpl.
    split; [done|]. split; [lia|]. split; [by constructor|].
    split; [lia|]. split; [|done].
    intros h ->. specialize (Hhi h eq_refl). simpl in Hbelow.
    apply Nat.ltb_lt in Hbelow. lia. }
  assert (lo <= count -> k c g = Some res ->
    exists c' w,
      c_rest c = w ++ c_rest c' /\ c_pos c' = c_pos c + length w /\
      Forall (fun x => cclass_matches cc x = true) w /\
      lo - count <= length w /\
      (forall h, hi = Some h -> length w <= h - count) /\
      k c' g = Some res) as Hdone.
  { intros Hle H. exists c, []. simpl.
    split; [done|]. split; [lia|]. split; [done|]. split; [lia|].
    split; [|done]. intros. lia. }
  destruct (Nat.ltb_spec count lo); [done|].
  destruct greedy; unfold or_else.
  - destruct again; [|by auto]. auto.
  - destruct (k c g); [by auto|]. auto.
Qed.

Lemma slice_of_run text (p : nat) (w rest : str) :
  p <= length text -> drop p text = w ++ rest ->
  slice text (Z.of_nat p) (Z.of_nat (p + length w)) = w.
Proof.
  intros Hp Hd.
  assert (length text = p + length w + length rest) as Hlen.
  { rewrite <- (take_drop p text) at 1.
    rewrite length_app, length_take, Hd, length_app. lia. }
  rewrite slice_take_drop by (unfold len; lia).
  rewrite Nat2Z.id.
  replace (Z.to_nat (Z.of_nat (p + length w) - Z.of_nat p)) with (length w)
    by lia.
  rewrite Hd. apply take_app_length.
Qed.

(** A match of the header pattern has the groups of [header_shape]. *)
Lemma header_match_shape text c c' g :
  cursor_at text c -> match_at header_pattern c = Some (c', g) ->
  header_shape (group_text text (Match (c_pos c) c' g) 1,
                group_text text (Match (c_pos c) c' g) 2).
Proof.
  intros [Hpos Hrest]. unfold match_at, header_pattern.
  cbn [rmatch]. destruct (at_bol c); [|done].
  intros H. apply repeat_class_run in H
    as (c1 & w1 & Hw1 & Hp1 & Hall1 & Hlo1 & Hhi1 & H).
  apply repeat_class_run in H
    as (c2 & w2 & Hw2 & Hp2 & _ & _ & _ & H).
  apply repeat_class_run in H
    as (c3 & w3 & Hw3 & Hp3 & Hall3 & Hlo3 & _ & H).
  destruct (at_eol c3); [|done]. injection H as <- <-.
  specialize (Hhi1 6 eq_refl).
  assert (length text = c_pos c + length (c_rest c)) as Hlen.
  { rewrite Hrest, length_drop. lia. }
  rewrite Hw1, Hw2, Hw3, !length_app in Hlen.
  assert (drop (c_pos c2) text = w3 ++ c_rest c3) as Hd3.
  { rewrite Hp2, Hp1.
    replace (c_pos c + length w1 + length w2)
      with (c_pos c + (length w1 + length w2)) by lia.
    rewrite <- drop_drop, <- Hrest, Hw1, Hw2, Hw3.
    rewrite app_assoc, <- length_app. by rewrite drop_app_length. }
  unfold group_text, group_span. cbn [m_groups List.find fst snd Nat.eqb fmap
    option_fmap option_map].
  rewrite Hp1. rewrite (slice_of_run text (c_pos c) w1 (c_rest c1));
    [|done|by rewrite <- Hrest].
  rewrite Hp3.
  rewrite (slice_of_run text (c_pos c2) w3 (c_rest c3)) by (done || lia).
  split; [simpl; lia|]. split.
  - eapply Forall_impl; [exact Hall1|]. simpl. intros x Hx.
    by apply N.eqb_eq in Hx.
  - split; [destruct w3; [simpl in Hlo3; lia|done]|].
    eapply Forall_impl; [exact Hall3|]. simpl. by intros x Hx ->.
Qed.

Lemma consumed_at text n c c' :
  cursor_at text c -> consumed n c c' -> cursor_at text c'.
Proof.
  intros [Hpos Hrest] (w & Hw & Hp & _).
  assert (length text = c_pos c + length (c_rest c)) as Hlen.
  { rewrite Hrest, length_drop. lia. }
  rewrite Hw, length_app in Hlen. split; [lia|].
  rewrite Hp, <- drop_drop, <- Hrest, Hw. by rewrite drop_app_length.
Qed.

Lemma search_loop_at (P : rmatch_obj -> Prop) r text :
  (forall c c' g, cursor_at text c -> match_at r c = Some (c', g) ->
                  P (Match (c_pos c) c' g)) ->
  forall rest pos prev m,
    cursor_at text (Cursor pos prev rest) ->
    search_loop r pos prev rest = Some m ->
    P m /\ cursor_at text (m_stop m).
Proof.
  intros HP. induction rest as [|x rest IH]; intros pos prev m Hat; simpl.
  - destruct (match_at r _) as [[c' g]|] eqn:Hm; [|done].
    intros [= <-]. split; [by apply (HP _ _ _ Hat Hm)|].
    apply rmatch_sound in Hm as (c1 & g1 & Hc & [= -> ->]).
    by eapply consumed_at.
  - destruct (match_at r _) as [[c' g]|] eqn:Hm.
    + intros [= <-]. split; [by apply (HP _ _ _ Hat Hm)|].
      apply rmatch_sound in Hm as (c1 & g1 & Hc & [= -> ->]).
      by eapply consumed_at.
    + apply IH. destruct Hat as [Hpos Hrest]. simpl in *.
      assert (length text = pos + S (length rest)) as Hlen.
      { rewrite <- (take_drop pos text) at 1.
        rewrite length_app, length_take, <- Hrest. simpl. lia. }
      split; [simpl; lia|]. simpl.
      replace (S pos) with (pos + 1) by lia.
      by rewrite <- drop_drop, <- Hrest.
Qed.

Lemma finditer_loop_at (P : rmatch_obj -> Prop) r text :
  (forall c c' g, cursor_at text c -> match_at r c = Some (c', g) ->
                  P (Match (c_pos c) c' g)) ->
  forall fuel c, cursor_at text c -> Forall P (finditer_loop r fuel c).
Proof.
  intros HP. induction fuel as [|fuel IH]; intros c Hat; simpl; [done|].
  destruct (search r c) as [m|] eqn:Hs; [|done].
  unfold search in Hs. destruct c as [pos prev rest].
  apply (search_loop_at P r text HP) in Hs as [Hm Hat']; [|done].
  constructor; [done|].
  destruct (m_start m <? m_end m); [by apply IH|].
  unfold advance. destruct (c_rest (m_stop m)) as [|x rest'] eqn:Hrest';
    [done|].
  apply IH. destruct Hat' as [Hpos Hrest]. rewrite Hrest' in Hrest.
  assert (length text = c_pos (m_stop m) + S (length rest')) as Hlen.
  { rewrite <- (take_drop (c_pos (m_stop m)) text) at 1.
    rewrite length_app, length_take, <- Hrest. simpl. lia. }
  split; [simpl; lia|]. simpl.
  replace (S (c_pos (m_stop m))) with (c_pos (m_stop m) + 1) by lia.
  by rewrite <- drop_drop, <- Hrest.
Qed.

Lemma findall_header_shape text :
  Forall header_shape (findall2 header_pattern text).
Proof.
  unfold findall2. apply Forall_fmap.
  apply (finditer_loop_at _ header_pattern text).
  - intros c c' g Hat Hm. by apply header_match_shape.
  - split; [simpl; lia|done].
Qed.

End Captures.

Lemma lstrip_elem (x : char) (s : str) : x ∈ lstrip s -> x ∈ s.
Proof.
  induction s as [|c s IH]; [done|]. simpl.
  destruct (is_space c); [|done]. intros H. right. by apply IH.
Qed.

(** Stripping adds no character. *)
Lemma strip_elem (x : char) (s : str) : x ∈ strip s -> x ∈ s.
Proof.
  unfold strip, rstrip. rewrite list_elem_of_In, <- in_rev.
  rewrite <- list_elem_of_In. intros H%lstrip_elem.
  rewrite list_elem_of_In, <- in_rev, <- list_elem_of_In in H.
  by apply lstrip_elem.
Qed.

Lemma join_elem (x : char) (sep : str) (l : list str) :
  x ∈ join sep l -> x ∈ sep \/ exists s, s ∈ l /\ x ∈ s.
Proof.
  induction l as [|s l IH]; simpl.
  - intros H. by apply elem_of_nil in H.
  - destruct l as [|s' l].
    + intros H. right. exists s. split; [by left|done].
    + rewrite !elem_of_app. intros [H|[H|H]].
      * right. exists s. split; [by left|done].
      * by left.
      * destruct (IH H) as [|(s0 & Hs0 & Hx)]; [by left|].
        right. exists s0. split; [by right|done].
Qed.

(** Every entry of the map after a scan was there before or comes from
    a scanned header. *)
Lemma scan_entries (ms : list (str * str)) (d : gmap nat str) k v :
  foldl header_step d ms !! k = Some v ->
  d !! k = Some v \/
  exists m, m ∈ ms /\ k = length (fst m) /\ v = strip (snd m).
Proof.
  induction ms as [|[h title] ms IH] using rev_ind; [by left|].
  rewrite foldl_app. simpl. rewrite header_step_lookup.
  case_decide as Hk; [|case_decide; [done|]].
  - intros [= <-]. right. exists (h, title).
    split; [|done]. apply elem_of_app. right. by left.
  - intros [Hd|(m & Hm & Hkm & Hv)]%IH; [by left|].
    right. exists m. split; [|done]. apply elem_of_app. by left.
Qed.

Lemma header_map_shape_aux text k v :
  active_headers (update_from_text HeaderTracker_init text) !! k = Some v ->
  (1 <= k <= 6)%nat /\ Forall (fun c => c <> nl) v.
Proof.
  unfold update_from_text. simpl.
  intros [H|(m & Hm & -> & ->)]%scan_entries; [done|].
  pose proof (findall_header_shape text) as Hshape.
  apply (proj1 (Forall_forall _ _) Hshape) in Hm
    as (Hlen & _ & _ & Hnl).
  split; [done|]. apply Forall_forall. intros c Hc%strip_elem.
  by apply (proj1 (Forall_forall _ _) Hnl).
Qed.

(** ** More on [split] *)

Lemma concat_truthy (l : list str) :
  truthy (concat l) = true -> exists s, s ∈ l /\ truthy s = true.
Proof.
  induction l as [|s l IH]; [done|]. simpl.
  destruct s as [|c s].
  - simpl. intros (s' & Hs' & Ht)%IH. exists s'. split; [by right|done].
  - intros _. exists (c :: s). split; [by left|done].
Qed.

(** ** The properties *)

(** X1: every range that [extract_protected_ranges] returns on a
    constructed splitter is a non-empty slice of the text:
    [0 <= start < end <= len(text)]. *)
Theorem protected_ranges_within_text cs ov text r :
  r ∈ extract_protected_ranges (TextSplitter_init cs ov) text ->
  0 <= fst r /\ fst r < snd r /\ snd r <= len text.
Proof. apply (extract_protected_ranges_bounds cs ov HeaderTracker_init). Qed.

Lemma protected_ranges_within_text_witness :
  (7, 13) ∈ extract_protected_ranges (TextSplitter_init 200 50) doc_mixed /\
  0 <= 7 /\ 7 < 13 /\ 13 <= len doc_mixed.
Proof.
  assert ((7, 13) ∈
          extract_protected_ranges (TextSplitter_init 200 50) doc_mixed) as H.
  { vm_compute. left. }
  split; [exact H|].
  exact (protected_ranges_within_text 200 50 doc_mixed (7, 13) H).
Defined.

(** X2: the result of [extract_protected_ranges] holds exactly the
    matches of the protect patterns, each as often as it is matched, in
    ascending order of [(start, end)]. *)
Theorem protected_ranges_sorted self text :
  extract_protected_ranges self text ≡ₚ
    flat_map (fun pattern => map span (finditer pattern text))
             (protect_patterns self) /\
  StronglySorted range_le (extract_protected_ranges self text).
Proof.
  unfold extract_protected_ranges. split; [apply sort_ranges_perm|].
  apply Sorted_StronglySorted; [apply _|]. apply sort_ranges_sorted.
Qed.

(** X3: a text without the characters [$], [`], [[] and [|] has no
    protected range, and [split_preserving_protected] on it is
    [recursive_split] of the whole text. *)
Theorem plain_text_has_no_protected_range cs ov text :
  c_dollar ∉ text -> c_btick ∉ text -> c_lbrack ∉ text -> c_pipe ∉ text ->
  extract_protected_ranges (TextSplitter_init cs ov) text = [] /\
  split_preserving_protected (TextSplitter_init cs ov) text [] =
    recursive_split (TextSplitter_init cs ov) text.
Proof.
  intros H1 H2 H3 H4. split.
  - unfold extract_protected_ranges.
    change (protect_patterns (TextSplitter_init cs ov)) with
      [latex_pattern; code_pattern; image_pattern; link_pattern;
       table_pattern].
    cbn [flat_map].
    rewrite (finditer_needs c_dollar latex_pattern),
      (finditer_needs c_btick code_pattern),
      (finditer_needs c_lbrack image_pattern),
      (finditer_needs c_lbrack link_pattern),
      (finditer_needs c_pipe table_pattern); done.
  - unfold split_preserving_protected. cbn [protected_loop].
    cbn [mbind option_bind fst snd].
    destruct (Z.ltb_spec 0 (len text)) as [Hlt|Hge].
    + rewrite slice_from_drop by lia.
      change (drop (Z.to_nat 0) text) with text.
      by destruct (recursive_split _ text).
    + destruct text; [done|]. unfold len in Hge. simpl in Hge. lia.
Qed.

Lemma plain_text_has_no_protected_range_witness :
  (c_dollar ∉ doc_title) /\ (c_btick ∉ doc_title) /\
  (c_lbrack ∉ doc_title) /\ (c_pipe ∉ doc_title) /\
  extract_protected_ranges (TextSplitter_init 200 50) doc_title = [] /\
  split_preserving_protected (TextSplitter_init 200 50) doc_title [] =
    recursive_split (TextSplitter_init 200 50) doc_title.
Proof.
  assert (c_dollar ∉ doc_title) as H1
    by (apply (bool_decide_unpack _); vm_compute; exact I).
  assert (c_btick ∉ doc_title) as H2
    by (apply (bool_decide_unpack _); vm_compute; exact I).
  assert (c_lbrack ∉ doc_title) as H3
    by (apply (bool_decide_unpack _); vm_compute; exact I).
  assert (c_pipe ∉ doc_title) as H4
    by (apply (bool_decide_unpack _); vm_compute; exact I).
  split; [exact H1|]. split; [exact H2|]. split; [exact H3|].
  split; [exact H4|].
  exact (plain_text_has_no_protected_range 200 50 doc_title H1 H2 H3 H4).
Defined.

(** X4: with a positive [chunk_size], [recursive_split] returns and no
    piece is longer than [chunk_size]. *)
Theorem recursive_split_pieces_fit cs ov text :
  0 < cs ->
  exists res,
    recursive_split (TextSplitter_init cs ov) text = Some res /\
    Forall (fun piece => len piece <= cs) res.
Proof.
  intros Hcs.
  destruct (recursive_split_total (TextSplitter_init cs ov) Hcs
              (init_separators_nonempty cs ov) text) as [res Hres].
  exists res. split; [done|].
  by apply (recursive_split_size (TextSplitter_init cs ov) Hcs
              (init_separators_nonempty cs ov) text).
Qed.

Lemma recursive_split_pieces_fit_witness :
  0 < 200 /\
  exists res,
    recursive_split (TextSplitter_init 200 50) doc_blank_run = Some res /\
    Forall (fun piece => len piece <= 200) res.
Proof.
  split; [lia|].
  apply (recursive_split_pieces_fit 200 50 doc_blank_run). lia.
Defined.

(** X5: with a positive [chunk_size], the pieces of [recursive_split]
    hold, in the order of the text, every character of the text that is
    neither whitespace nor one of the three sentence terminators, and no
    other such character. *)
Theorem recursive_split_keeps_essence cs ov text :
  0 < cs ->
  exists res,
    recursive_split (TextSplitter_init cs ov) text = Some res /\
    essence (concat res) = essence text.
Proof.
  intros Hcs.
  destruct (recursive_split_total (TextSplitter_init cs ov) Hcs
              (init_separators_nonempty cs ov) text) as [res Hres].
  exists res. split; [done|].
  by apply (recursive_split_essence (TextSplitter_init cs ov) Hcs
              (init_separators_nonempty cs ov)
              (init_separators_droppable cs ov) text).
Qed.

Lemma recursive_split_keeps_essence_witness :
  0 < 3 /\
  exists res,
    recursive_split (TextSplitter_init 3 0) doc_three_lines = Some res /\
    essence (concat res) = essence doc_three_lines.
Proof.
  split; [lia|].
  apply (recursive_split_keeps_essence 3 0 doc_three_lines). lia.
Defined.

(** X6: with a [chunk_size] that is not positive, [recursive_split]
    returns the empty list on a text of whitespace and sentence
    terminators only, and does not return on any other text: no amount
    of fuel yields a result. *)
Theorem recursive_split_nonpositive_size cs ov text :
  cs <= 0 ->
  (essence text = [] ->
   recursive_split (TextSplitter_init cs ov) text = Some []) /\
  (essence text <> [] ->
   forall fuel,
     recursive_split_fuel (TextSplitter_init cs ov) fuel text = None).
Proof.
  intros Hcs. split.
  - intros Hess. unfold recursive_split.
    apply nonpositive_size_empty; [done|lia|done].
  - intros Hess fuel. by apply nonpositive_size_loops.
Qed.

Lemma recursive_split_nonpositive_size_witness :
  0 <= 0 /\
  essence [c_ideo_stop; nl; c_fw_bang] = [] /\
  essence doc_title <> [] /\
  recursive_split (TextSplitter_init 0 50) [c_ideo_stop; nl; c_fw_bang]
    = Some [] /\
  forall fuel,
    recursive_split_fuel (TextSplitter_init 0 50) fuel doc_title = None.
Proof.
  assert (essence [c_ideo_stop; nl; c_fw_bang] = []) as H1
    by (vm_compute; reflexivity).
  assert (essence doc_title <> []) as H2 by (vm_compute; discriminate).
  split; [lia|]. split; [exact H1|]. split; [exact H2|]. split.
  - exact (proj1 (recursive_split_nonpositive_size 0 50
                    [c_ideo_stop; nl; c_fw_bang] ltac:(lia)) H1).
  - exact (proj2 (recursive_split_nonpositive_size 0 50 doc_title
                    ltac:(lia)) H2).
Defined.

(** X7: with a positive [chunk_size] and any list of ranges,
    [split_preserving_protected] returns, and every segment longer than
    [chunk_size] is the text of one of the ranges. *)
Theorem segments_fit_or_protected cs ov text ranges :
  0 < cs ->
  exists segs,
    split_preserving_protected (TextSplitter_init cs ov) text ranges
      = Some segs /\
    Forall (fun seg =>
              len seg <= cs \/
              exists r, r ∈ ranges /\ seg = slice text (fst r) (snd r))
           segs.
Proof.
  intros Hcs.
  destruct (split_preserving_protected_spec (TextSplitter_init cs ov) Hcs
              (init_separators_nonempty cs ov) text ranges)
    as (segs & Hsegs & _ & Horigin).
  exists segs. split; [done|]. exact Horigin.
Qed.

Lemma segments_fit_or_protected_witness :
  0 < 200 /\
  exists segs,
    split_preserving_protected (TextSplitter_init 200 50) code_block_500
      [(0, 500)] = Some segs /\
    Forall (fun seg =>
              len seg <= 200 \/
              exists r, r ∈ [(0, 500)] /\
                        seg = slice code_block_500 (fst r) (snd r))
           segs.
Proof.
  split; [lia|].
  apply (segments_fit_or_protected 200 50 code_block_500 [(0, 500)]). lia.
Defined.

(** X8: [merge_chunks] never emits an empty chunk, whatever the sizes
    and the segments. *)
Theorem merge_chunks_never_empty self segs :
  Forall (fun chunk => truthy chunk = true) (merge_chunks self segs).
Proof. unfold merge_chunks. by apply merge_emits_truthy. Qed.

(** X9: when all segments together are at most [chunk_size] long,
    [merge_chunks] returns their concatenation as the only chunk, or no
    chunk when it is empty. *)
Theorem merge_chunks_all_fit self segs :
  len (concat segs) <= chunk_size self ->
  merge_chunks self segs =
    if truthy (concat segs) then [concat segs] else [].
Proof.
  intros Hfit. unfold merge_chunks.
  rewrite merge_all_fit by (by rewrite Z.add_0_l).
  unfold merge_finish. simpl. by destruct (truthy (concat segs)).
Qed.

Lemma merge_chunks_all_fit_witness :
  len (concat [lit "ab"; lit "cd"]) <= chunk_size (TextSplitter_init 5 2) /\
  merge_chunks (TextSplitter_init 5 2) [lit "ab"; lit "cd"] = [lit "abcd"].
Proof.
  assert (len (concat [lit "ab"; lit "cd"])
          <= chunk_size (TextSplitter_init 5 2)) as H
    by (vm_compute; discriminate).
  split; [exact H|].
  exact (merge_chunks_all_fit (TextSplitter_init 5 2)
           [lit "ab"; lit "cd"] H).
Defined.

(** X10: every non-empty segment lies as a whole within one of the
    chunks that [merge_chunks] returns: a segment is neither cut nor
    dropped. *)
Theorem merge_chunks_keeps_segments self segs seg :
  seg ∈ segs -> truthy seg = true ->
  exists chunk, chunk ∈ merge_chunks self segs /\ within seg chunk.
Proof. apply merge_chunks_within. Qed.

Lemma merge_chunks_keeps_segments_witness :
  lit "fgh" ∈ [lit "abcde"; lit "fgh"] /\
  truthy (lit "fgh") = true /\
  exists chunk,
    chunk ∈ merge_chunks (TextSplitter_init 5 2) [lit "abcde"; lit "fgh"] /\
    within (lit "fgh") chunk.
Proof.
  assert (lit "fgh" ∈ [lit "abcde"; lit "fgh"]) as H by (right; left).
  split; [exact H|]. split; [reflexivity|].
  exact (merge_chunks_keeps_segments (TextSplitter_init 5 2)
           [lit "abcde"; lit "fgh"] (lit "fgh") H eq_refl).
Defined.

(** X11: the chunks of [merge_chunks] are the overlap carried from the
    chunk before (none for the first) followed by new content, and the
    new contents of all chunks, in order, concatenate to the
    concatenation of the segments. *)
Theorem merge_chunks_rebuild self segs :
  exists bodies,
    merge_chunks self segs = rebuild self [] bodies /\
    concat bodies = concat segs.
Proof.
  unfold merge_chunks.
  assert (rebuild_inv self [] ([], [])) as H0.
  { exists [], []. simpl. split; [done|]. split; [|done].
    unfold overlap_of. rewrite slice_from_empty. by destruct (_ <? _). }
  apply (rebuild_inv_foldl self [] _ segs) in H0. simpl in H0.
  destruct (foldl (merge_step self) ([], []) segs) as [chunks cur].
  unfold merge_finish. simpl. destruct (truthy cur) eqn:Ht.
  - by apply (rebuild_inv_emit self segs).
  - destruct H0 as (bodies & pending & Hc & Hcur & Hcat). simpl in *.
    apply truthy_false in Ht. rewrite Ht in Hcur.
    symmetry in Hcur. apply app_eq_nil in Hcur as [_ ->].
    exists bodies. split; [done|]. by rewrite app_nil_r in Hcat.
Qed.

(** X12: with a positive [chunk_overlap], when no segment is longer
    than [chunk_size], no chunk of [merge_chunks] is longer than
    [chunk_size + chunk_overlap]. *)
Theorem merge_chunks_size_bound self segs :
  0 < chunk_overlap self ->
  Forall (fun seg => len seg <= chunk_size self) segs ->
  Forall (fun chunk => len chunk <= chunk_size self + chunk_overlap self)
         (merge_chunks self segs).
Proof.
  intros Hov Hsegs.
  pose proof (merge_chunks_bounded self Hov (fun _ => False) segs) as H.
  eapply Forall_impl; [apply H|].
  - eapply Forall_impl; [exact Hsegs|]. simpl. intros seg Hle Hbig. lia.
  - simpl. by intros chunk [Hle|(pre & seg & [] & _)].
Qed.

Lemma merge_chunks_size_bound_witness :
  0 < chunk_overlap (TextSplitter_init 3 1) /\
  Forall (fun seg => len seg <= chunk_size (TextSplitter_init 3 1))
         [lit "aaa"; lit "bbb"; lit "ccc"] /\
  Forall (fun chunk => len chunk <= 3 + 1)
         (merge_chunks (TextSplitter_init 3 1)
            [lit "aaa"; lit "bbb"; lit "ccc"]).
Proof.
  assert (0 < chunk_overlap (TextSplitter_init 3 1)) as Hov
    by (simpl; lia).
  assert (Forall (fun seg => len seg <= chunk_size (TextSplitter_init 3 1))
            [lit "aaa"; lit "bbb"; lit "ccc"]) as Hsegs
    by (repeat constructor; vm_compute; discriminate).
  split; [exact Hov|]. split; [exact Hsegs|].
  exact (merge_chunks_size_bound (TextSplitter_init 3 1)
           [lit "aaa"; lit "bbb"; lit "ccc"] Hov Hsegs).
Defined.

(** X13: every match of the header pattern has 1 to 6 hashes and a
    non-empty title without newline; so after [update_from_text] on a
    fresh tracker every level of the header map is between 1 and 6 and
    no stored title holds a newline. *)
Theorem header_map_levels text :
  Forall header_shape (findall2 header_pattern text) /\
  forall k v,
    active_headers (update_from_text HeaderTracker_init text) !! k = Some v ->
    (1 <= k <= 6)%nat /\ Forall (fun c => c <> nl) v.
Proof. split; [apply findall_header_shape|apply header_map_shape_aux]. Qed.

Lemma header_map_levels_witness :
  active_headers (update_from_text HeaderTracker_init doc_abc) !! 1%nat
    = Some (lit "C") /\
  (1 <= 1 <= 6)%nat /\ Forall (fun c => c <> nl) (lit "C").
Proof.
  assert (active_headers (update_from_text HeaderTracker_init doc_abc)
            !! 1%nat = Some (lit "C")) as H by (vm_compute; reflexivity).
  split; [exact H|].
  exact (proj2 (header_map_levels doc_abc) 1%nat (lit "C") H).
Defined.

(** X14: the header path that [get_headers] returns after the scan of a
    document by a fresh tracker is a single line: it holds no newline. *)
Theorem header_path_one_line text :
  Forall (fun c => c <> nl)
         (get_headers (update_from_text HeaderTracker_init text)).
Proof.
  apply Forall_forall. intros c Hc ->. revert Hc.
  unfold get_headers. intros [H|(s & Hs & Hx)]%join_elem.
  - vm_compute in H. by repeat (apply elem_of_cons in H as [H|H]; [done|]);
      apply elem_of_nil in H.
  - apply list_elem_of_fmap in Hs as (k & -> & Hk).
    rewrite merge_sort_Permutation in Hk. apply keys_elem in Hk as [v Hv].
    rewrite (lookup_total_correct _ _ _ Hv) in Hx.
    apply header_map_shape_aux in Hv as [_ Hnl].
    by apply (proj1 (Forall_forall _ _) Hnl) in Hx.
Qed.

(** X15: after [update_from_text] on a text with at least one header,
    the level of the last header holds its trimmed title, no deeper level
    is left, and the header path ends with that title. *)
Theorem last_header_closes_path t text ms hashes title :
  findall2 header_pattern text = ms ++ [(hashes, title)] ->
  let d := active_headers (update_from_text t text) in
  d !! length hashes = Some (strip title) /\
  (forall k, (length hashes < k)%nat -> d !! k = None) /\
  exists pre, get_headers (update_from_text t text) = pre ++ strip title.
Proof.
  intros Hms d.
  assert (forall k, d !! k =
            if decide (k = length hashes) then Some (strip title)
            else if decide (length hashes < k)%nat then None
            else foldl header_step (active_headers t) ms !! k) as Hd.
  { intros k. unfold d, update_from_text. simpl.
    rewrite Hms, foldl_app. simpl. apply header_step_lookup. }
  assert (d !! length hashes = Some (strip title)) as Hlast.
  { rewrite Hd. by case_decide. }
  assert (forall k, (length hashes < k)%nat -> d !! k = None) as Hdeep.
  { intros k Hk. rewrite Hd. case_decide; [lia|]. by case_decide. }
  split; [done|]. split; [done|].
  unfold get_headers. fold d.
  destruct (sorted_last_max (merge_sort Nat.le (keys d)) (length hashes))
    as [l0 Hl0].
  - apply Sorted_merge_sort; apply _.
  - rewrite merge_sort_Permutation. apply keys_elem. eauto.
  - intros y. rewrite merge_sort_Permutation. intros [v Hv]%keys_elem.
    destruct (decide (y <= length hashes)%nat) as [|Hgt]; [done|].
    rewrite Hdeep in Hv by lia. done.
  - rewrite Hl0, map_app. simpl. rewrite join_snoc.
    rewrite (lookup_total_correct _ _ _ Hlast).
    destruct (map _ l0); [by exists []|].
    eexists. by rewrite app_assoc.
Qed.

Lemma last_header_closes_path_witness :
  findall2 header_pattern doc_abc =
    [(lit "#", lit "A"); (lit "##", lit "B")] ++ [(lit "#", lit "C")] /\
  active_headers (update_from_text HeaderTracker_init doc_abc)
    !! length (lit "#") = Some (strip (lit "C")) /\
  (forall k, (length (lit "#") < k)%nat ->
     active_headers (update_from_text HeaderTracker_init doc_abc) !! k
       = None) /\
  exists pre,
    get_headers (update_from_text HeaderTracker_init doc_abc)
      = pre ++ strip (lit "C").
Proof.
  assert (findall2 header_pattern doc_abc =
    [(lit "#", lit "A"); (lit "##", lit "B")] ++ [(lit "#", lit "C")]) as H
    by (vm_compute; reflexivity).
  split; [exact H|].
  exact (last_header_closes_path HeaderTracker_init doc_abc _ _ _ H).
Defined.

(** X16: [update_from_text] is idempotent: scanning the same text a
    second time leaves the header map as the first scan left it. *)
Theorem update_from_text_idempotent t text :
  update_from_text (update_from_text t text) text = update_from_text t text.
Proof.
  unfold update_from_text. simpl. f_equal. apply scan_idempotent.
Qed.

(** X17: a second [split] of the same document on the same splitter
    returns the same chunks and leaves the splitter as the first call
    left it. *)
Theorem split_again_same self text self1 out :
  split self text = Some (self1, out) ->
  split self1 text = Some (self1, out).
Proof.
  rewrite split_unfold.
  destruct (split_preserving_protected self text _) as [segs|] eqn:Hsegs;
    [|done].
  intros [= <- <-]. rewrite split_unfold.
  rewrite split_preserving_protected_set_tracker,
    extract_protected_ranges_set_tracker, Hsegs.
  cbn [header_tracker set_tracker]. rewrite update_from_text_idempotent_aux.
  reflexivity.
Qed.

Lemma split_again_same_witness :
  split (TextSplitter_init 200 50) doc_title =
    Some (set_tracker (TextSplitter_init 200 50)
            (update_from_text HeaderTracker_init doc_title),
          [lit "Title" ++ [nl; nl] ++ doc_title]) /\
  split (set_tracker (TextSplitter_init 200 50)
           (update_from_text HeaderTracker_init doc_title)) doc_title =
    Some (set_tracker (TextSplitter_init 200 50)
            (update_from_text HeaderTracker_init doc_title),
          [lit "Title" ++ [nl; nl] ++ doc_title]).
Proof.
  assert (split (TextSplitter_init 200 50) doc_title =
    Some (set_tracker (TextSplitter_init 200 50)
            (update_from_text HeaderTracker_init doc_title),
          [lit "Title" ++ [nl; nl] ++ doc_title])) as H
    by (vm_compute; reflexivity).
  split; [exact H|].
  exact (split_again_same _ _ _ _ H).
Defined.

(** X18: with a positive [chunk_size], [split] returns at least one
    chunk for every text that holds a character other than whitespace
    and the three sentence terminators. *)
Theorem split_keeps_content cs ov text :
  0 < cs -> essence text <> [] ->
  exists self' chunk chunks,
    split (TextSplitter_init cs ov) text = Some (self', chunk :: chunks).
Proof.
  intros Hcs Hess. set (self := TextSplitter_init cs ov).
  pose proof (init_separators_nonempty cs ov) as Hsep.
  rewrite split_unfold.
  destruct (split_preserving_protected_spec self Hcs Hsep text
              (extract_protected_ranges self text))
    as (segs & Hsegs & Hin & _).
  rewrite Hsegs.
  assert (exists seg, seg ∈ segs /\ truthy seg = true) as (seg & Hseg & Ht).
  { destruct (extract_protected_ranges self text) as [|r ranges] eqn:Hr.
    - destruct (split_preserving_protected_essence self Hcs Hsep
                  (init_separators_droppable cs ov) text [])
        as (segs' & Hsegs' & Hcat).
      { simpl. apply Z.leb_le. apply len_nonneg. }
      rewrite Hsegs in Hsegs'. injection Hsegs' as <-.
      apply concat_truthy. apply essence_truthy. by rewrite Hcat.
    - exists (slice text (fst r) (snd r)). split; [apply Hin; by left|].
      apply protected_slice_truthy.
      apply (extract_protected_ranges_bounds cs ov HeaderTracker_init).
      change (set_tracker (TextSplitter_init cs ov) HeaderTracker_init)
        with self. rewrite Hr. by left. }
  destruct (merge_chunks_within self segs seg Hseg Ht)
    as (chunk & Hchunk & _).
  cbn [fmap option_fmap option_map].
  destruct (merge_chunks self segs) as [|c cs'] eqn:Hm.
  - by apply elem_of_nil in Hchunk.
  - simpl. by eexists _, _, _.
Qed.

Lemma split_keeps_content_witness :
  0 < 200 /\ essence doc_title <> [] /\
  exists self' chunk chunks,
    split (TextSplitter_init 200 50) doc_title
      = Some (self', chunk :: chunks).
Proof.
  assert (essence doc_title <> []) as H by (vm_compute; discriminate).
  split; [lia|]. split; [exact H|].
  exact (split_keeps_content 200 50 doc_title ltac:(lia) H).
Defined.

(** * Protected ranges that do not overlap *)

(** Sorted, non-empty ranges of which no two overlap follow one
    another. *)
Lemma sorted_apart_tiling n ranges last :
  StronglySorted range_le ranges -> pairwise_apart ranges ->
  Forall (fun r => 0 <= fst r /\ fst r < snd r /\ snd r <= n) ranges ->
  last <= n -> Forall (fun r => last <= fst r) ranges ->
  tiling last ranges n = true.
Proof.
  intros Hs. revert last.
  induction Hs as [|[s e] ranges Hs IH Hle]; intros last Hap Hb Hn Hlast.
  - simpl. lia.
  - destruct Hap as [Hap1 Hap]. inversion Hb as [|? ? Hb1 Hb']; subst.
    inversion Hlast as [|? ? Hl1 _]; subst. simpl in *.
    rewrite IH; [lia|done|done|lia|].
    apply Forall_forall. intros r Hr.
    pose proof (proj1 (Forall_forall _ _) Hap1 r Hr) as Ha.
    pose proof (proj1 (Forall_forall _ _) Hle r Hr) as Hle'.
    pose proof (proj1 (Forall_forall _ _) Hb' r Hr) as Hbr.
    unfold apart, range_le in *. simpl in *. lia.
Qed.

Section Lace.

Variable self : TextSplitter.

(** On ranges that follow one another the loop walks through the text
    once: it ends where the last range ends, what it has passed is the
    gaps and the regions in turn, and it has added the pieces of each
    gap followed by the region. *)
Lemma protected_loop_lace text ranges segs last segs' last' :
  0 <= last -> tiling last ranges (len text) = true ->
  protected_loop self text ranges segs last = Some (segs', last') ->
  last' = end_of_ranges last ranges /\ last <= last' <= len text /\
  slice text last last' =
    concat (lace (map single (gaps_between text last ranges))
                 (regions_of text ranges)) /\
  exists pieces,
    Forall2 (fun gap ps => recursive_split self gap = Some ps)
            (gaps_between text last ranges) pieces /\
    segs' = segs ++ lace pieces (regions_of text ranges).
Proof.
  revert segs last.
  induction ranges as [|[s e] ranges IH]; intros segs last Hlast Htile; simpl.
  - intros [= <- <-]. simpl in Htile. split; [done|]. split; [lia|].
    split; [by rewrite slice_same by lia|].
    exists []. split; [constructor|by rewrite app_nil_r].
  - simpl in Htile.
    apply andb_prop in Htile as [[H1 H2]%andb_prop Htile].
    pose proof (tiling_le _ _ _ Htile) as He.
    destruct (Z.ltb_spec last s) as [Hlt|Hge].
    + destruct (recursive_split self (slice text last s)) as [ps|] eqn:Hps;
        [|done].
      simpl. intros Hloop.
      apply IH in Hloop as (-> & Hle & Hcat & pieces & Hp & ->);
        [|lia|done].
      split; [done|]. split; [lia|]. split.
      * rewrite <- Hcat. unfold single. simpl.
        rewrite app_assoc, slice_join by lia. symmetry.
        apply slice_join; lia.
      * exists (ps :: pieces). split; [by constructor|].
        simpl. by rewrite <- !app_assoc.
    + simpl. intros Hloop.
      apply IH in Hloop as (-> & Hle & Hcat & pieces & Hp & ->);
        [|lia|done].
      assert (last = s) as -> by lia.
      split; [done|]. split; [lia|]. split.
      * rewrite <- Hcat. unfold single. simpl.
        rewrite slice_same by lia. simpl. symmetry. apply slice_join; lia.
      * exists ([] :: pieces). split.
        -- constructor; [|done]. by rewrite slice_same by lia.
        -- simpl. by rewrite <- !app_assoc.
Qed.

(** The same for [split_preserving_protected], with the text after the
    last range. *)
Lemma split_preserving_protected_lace text ranges segs :
  tiling 0 ranges (len text) = true ->
  split_preserving_protected self text ranges = Some segs ->
  text = concat (lace (map single (gaps_between text 0 ranges))
                      (regions_of text ranges))
           ++ slice_from text (end_of_ranges 0 ranges) /\
  exists pieces tail_pieces,
    Forall2 (fun gap ps => recursive_split self gap = Some ps)
            (gaps_between text 0 ranges) pieces /\
    recursive_split self (slice_from text (end_of_ranges 0 ranges))
      = Some tail_pieces /\
    segs = lace pieces (regions_of text ranges) ++ tail_pieces.
Proof.
  intros Htile. unfold split_preserving_protected.
  destruct (protected_loop self text ranges [] 0) as [[segs' last']|] eqn:Hl;
    [|done].
  apply protected_loop_lace in Hl as (-> & Hle & Hcat & pieces & Hp & ->);
    [|lia|done].
  simpl. intros Hsegs. split.
  { rewrite <- Hcat. symmetry. apply slice_whole_from; lia. }
  exists pieces. revert Hsegs.
  destruct (Z.ltb_spec (end_of_ranges 0 ranges) (len text)).
  - destruct (recursive_split self (slice_from text _)) as [ps|] eqn:Hps;
      [|done].
    simpl. intros [= <-]. by exists ps.
  - intros [= <-]. exists []. split; [done|]. split; [|by rewrite app_nil_r].
    rewrite slice_from_drop by lia.
    rewrite drop_ge; [done|]. unfold len in *. lia.
Qed.

(** *** The chunks are runs of whole segments *)

Lemma runs_inv_emit seen chunks cur :
  runs_inv self seen (chunks, cur) ->
  exists runs : list (list str),
    chunks ++ [cur] = rebuild self [] (map (fun run => concat run) runs) /\
    concat runs = seen.
Proof.
  intros (runs & pending & Hc & Hcur & Hcat). simpl in *.
  exists (runs ++ [pending]). split.
  - rewrite map_app. simpl. rewrite rebuild_snoc, <- Hc. by rewrite Hcur.
  - rewrite concat_app. simpl. by rewrite app_nil_r.
Qed.

Lemma runs_inv_step seen st seg :
  runs_inv self seen st ->
  runs_inv self (seen ++ [seg]) (merge_step self st seg).
Proof.
  destruct st as [chunks cur]. intros Hinv.
  destruct (merge_step_cases self chunks cur seg) as [[_ ->]|[_ ->]].
  - destruct (truthy cur) eqn:Ht.
    + destruct (runs_inv_emit _ _ _ Hinv) as (runs & Hb & Hcat).
      exists runs, [seg]. simpl. split; [done|]. split.
      * by rewrite last_snoc, app_nil_r.
      * by rewrite Hcat.
    + destruct Hinv as (runs & pending & Hc & Hcur & Hcat). simpl in *.
      apply truthy_false in Ht. rewrite Ht in Hcur.
      symmetry in Hcur. apply app_eq_nil in Hcur as [Ho Hp].
      exists runs, (pending ++ [seg]). split; [done|]. split.
      * simpl. rewrite Ht, Ho, concat_app, Hp. simpl. rewrite app_nil_r.
        unfold overlap_of. rewrite slice_from_empty.
        by destruct (_ <? _).
      * by rewrite app_assoc, Hcat.
  - destruct Hinv as (runs & pending & Hc & Hcur & Hcat). simpl in *.
    exists runs, (pending ++ [seg]). split; [done|]. split.
    + simpl. rewrite Hcur, concat_app. simpl.
      by rewrite app_nil_r, <- app_assoc.
    + by rewrite app_assoc, Hcat.
Qed.

Lemma runs_inv_foldl seen st segs :
  runs_inv self seen st ->
  runs_inv self (seen ++ segs) (foldl (merge_step self) st segs).
Proof.
  revert seen st. induction segs as [|seg segs IH]; intros seen st H.
  - by rewrite app_nil_r.
  - simpl. replace (seen ++ seg :: segs) with ((seen ++ [seg]) ++ segs)
      by (by rewrite <- app_assoc).
    by apply IH, runs_inv_step.
Qed.

Lemma concat_nil_truthy (l : list str) :
  Forall (fun s => truthy s = true) l -> concat l = [] -> l = [].
Proof.
  destruct l as [|s l]; [done|]. intros Hall Hcat.
  inversion Hall as [|? ? Hs _]; subst. simpl in Hcat.
  apply app_eq_nil in Hcat as [-> _]. done.
Qed.

(** Every chunk is the overlap carried from the chunk before, followed
    by a run of whole segments; the runs, in order, make up the segment
    list. *)
Lemma merge_chunks_runs segs :
  Forall (fun s => truthy s = true) segs ->
  exists runs : list (list str),
    concat runs = segs /\
    merge_chunks self segs =
      rebuild self [] (map (fun run => concat run) runs).
Proof.
  intros Hall. unfold merge_chunks.
  assert (runs_inv self [] ([], [])) as H0.
  { exists [], []. simpl. split; [done|]. split; [|done].
    unfold overlap_of. rewrite slice_from_empty. by destruct (_ <? _). }
  apply (runs_inv_foldl [] _ segs) in H0. simpl in H0.
  destruct (foldl (merge_step self) ([], []) segs) as [chunks cur].
  unfold merge_finish. simpl. destruct (truthy cur) eqn:Ht.
  - destruct (runs_inv_emit _ _ _ H0) as (runs & Hr & Hcat). by exists runs.
  - destruct H0 as (runs & pending & Hc & Hcur & Hcat). simpl in *.
    apply truthy_false in Ht. rewrite Ht in Hcur.
    symmetry in Hcur. apply app_eq_nil in Hcur as [_ Hp].
    assert (pending = []) as ->.
    { apply concat_nil_truthy; [|done].
      rewrite <- Hcat in Hall. by apply Forall_app in Hall as [_ ?]. }
    exists runs. split; [|done]. by rewrite app_nil_r in Hcat.
Qed.

End Lace.

Lemma lace_Forall {A} (P : A -> Prop) (gaps : list (list A)) regions :
  Forall (Forall P) gaps -> Forall P regions -> Forall P (lace gaps regions).
Proof.
  intros Hg. revert regions.
  induction Hg as [|gap gaps Hgap _ IH]; intros regions Hr; [done|].
  destruct Hr as [|region regions Hregion Hr]; [done|]. simpl.
  apply Forall_app. split; [done|]. constructor; [done|]. by apply IH.
Qed.

(** The ranges of a constructed splitter follow one another when no two
    of them overlap: they are sorted, not empty and within the text. *)
Lemma extract_protected_ranges_tiling cs ov text :
  pairwise_apart (extract_protected_ranges (TextSplitter_init cs ov) text) ->
  tiling 0 (extract_protected_ranges (TextSplitter_init cs ov) text)
         (len text) = true.
Proof.
  intros Hap.
  assert (Forall (fun r => 0 <= fst r /\ fst r < snd r /\ snd r <= len text)
            (extract_protected_ranges (TextSplitter_init cs ov) text)) as Hb.
  { apply Forall_forall. intros r Hr.
    by apply (extract_protected_ranges_bounds cs ov HeaderTracker_init). }
  apply sorted_apart_tiling; [|done|done|apply len_nonneg|].
  - apply Sorted_StronglySorted; [apply _|]. apply sort_ranges_sorted.
  - eapply Forall_impl; [exact Hb|]. simpl. lia.
Qed.

(** ** The property *)

(** X20: with a positive [chunk_size], when no two detected ranges
    overlap, no protected range is cut.  The text is, in order, the gap
    in front of each range and the range, then the text after the last
    range.  [split] returns; [recursive_split] is applied to the gaps
    and to the text after the last range only, and the segments are the
    pieces of each gap followed by the whole text of the range, then the
    pieces of the rest.  Every chunk is the header path, the overlap
    carried from the chunk before and a run of whole segments, the runs
    making up the segment list in order. *)
Theorem disjoint_ranges_atomic cs ov text :
  let self := TextSplitter_init cs ov in
  let ranges := extract_protected_ranges self text in
  let regions := regions_of text ranges in
  let gaps := gaps_between text 0 ranges in
  let tail := slice_from text (end_of_ranges 0 ranges) in
  let path := get_headers (update_from_text HeaderTracker_init text) in
  0 < cs -> pairwise_apart ranges ->
  text = concat (lace (map single gaps) regions) ++ tail /\
  exists pieces tail_pieces runs self',
    Forall2 (fun gap ps => recursive_split self gap = Some ps) gaps pieces /\
    recursive_split self tail = Some tail_pieces /\
    concat runs = lace pieces regions ++ tail_pieces /\
    split self text =
      Some (self', map (with_headers path)
                       (rebuild self [] (map (fun run => concat run) runs))).
Proof.
  intros self ranges regions gaps tail path Hcs Hap.
  pose proof (extract_protected_ranges_tiling cs ov text Hap) as Htile.
  pose proof (init_separators_nonempty cs ov) as Hsep.
  destruct (split_preserving_protected_spec self Hcs Hsep text ranges)
    as (segs & Hsegs & _).
  destruct (split_preserving_protected_lace self text ranges segs Htile Hsegs)
    as (Htext & pieces & tail_pieces & Hp & Htail & ->).
  split; [done|].
  assert (Forall (fun s => truthy s = true)
            (lace pieces regions ++ tail_pieces)) as Hall.
  { apply Forall_app. split.
    - apply lace_Forall.
      + clear -Hp Hcs Hsep. induction Hp as [|gap ps ? ? H _ IH]; [done|].
        constructor; [|done].
        eapply Forall_impl;
          [exact (recursive_split_piece_shape self Hcs Hsep gap _ H)|].
        by intros p [? _].
      + apply Forall_forall. intros region Hr.
        apply list_elem_of_fmap in Hr as (r & -> & Hr).
        apply protected_slice_truthy.
        by apply (extract_protected_ranges_bounds cs ov HeaderTracker_init).
    - eapply Forall_impl;
        [exact (recursive_split_piece_shape self Hcs Hsep tail _ Htail)|].
      by intros p [? _]. }
  destruct (merge_chunks_runs self _ Hall) as (runs & Hruns & Hmerge).
  exists pieces, tail_pieces, runs.
  eexists. split; [done|]. split; [done|]. split; [done|].
  rewrite split_unfold. fold ranges. rewrite Hsegs.
  cbn [fmap option_fmap option_map]. fold regions. by rewrite Hmerge.
Qed.

Lemma disjoint_ranges_atomic_witness :
  0 < 10 /\
  pairwise_apart
    (extract_protected_ranges (TextSplitter_init 10 2) doc_mixed) /\
  extract_protected_ranges (TextSplitter_init 10 2) doc_mixed
    = [(7, 13); (15, 20); (20, 30)] /\
  exists pieces tail_pieces runs self',
    Forall2 (fun gap ps =>
               recursive_split (TextSplitter_init 10 2) gap = Some ps)
            [slice doc_mixed 0 7; slice doc_mixed 13 15;
             slice doc_mixed 20 20]
            pieces /\
    recursive_split (TextSplitter_init 10 2) (slice_from doc_mixed 30)
      = Some tail_pieces /\
    concat runs =
      lace pieces [slice doc_mixed 7 13; slice doc_mixed 15 20;
                   slice doc_mixed 20 30] ++ tail_pieces /\
    split (TextSplitter_init 10 2) doc_mixed =
      Some (self',
            map (with_headers [])
                (rebuild (TextSplitter_init 10 2) []
                         (map (fun run => concat run) runs))).
Proof.
  assert (extract_protected_ranges (TextSplitter_init 10 2) doc_mixed
          = [(7, 13); (15, 20); (20, 30)]) as Hr by (vm_compute; reflexivity).
  assert (pairwise_apart
            (extract_protected_ranges (TextSplitter_init 10 2) doc_mixed))
    as Hap.
  { rewrite Hr. unfold apart. simpl. repeat constructor; simpl; lia. }
  split; [lia|]. split; [exact Hap|]. split; [exact Hr|].
  pose proof (proj2 (disjoint_ranges_atomic 10 2 doc_mixed ltac:(lia) Hap))
    as H.
  rewrite Hr in H. exact H.
Defined.
